(** * mshadow/tensor_random.h

    A shallow embedding of the random engines [Random<cpu>] and
    [Random<gpu>] of mshadow: the scratch-buffer carving [GetTemp], the
    stdlib-based uniform source ([RandNext], [RandNext2]), the rejection
    Box-Muller sampler [SampleNormal2D] and the tensor fillers
    [SampleUniform] and [SampleGaussian] (the branch compiled when
    [MSHADOW_USE_MKL] is 0).

    Part I holds the model and the vocabulary of the statements, Part II
    the lemmas and theorems. *)

From Stdlib Require Import ZArith Lia Bool List String.
From Stdlib Require Import Floats.SpecFloat.
From stdpp Require Import base option list gmap.

Local Open Scope Z_scope.

(** * Part I: the model *)

(** ** [index_t]

    [index_t] is declared in tensor.h, next to [Shape] and [Tensor]: an
    unsigned integer type, of [bits] bits, so that every arithmetic result
    is reduced modulo [2^bits]. *)
Module IndexT.

Definition modulus (bits : Z) : Z := 2 ^ bits.
Definition max (bits : Z) : Z := modulus bits - 1.

Definition wrap (bits x : Z) : Z := x mod modulus bits.

Definition add (bits x y : Z) : Z := wrap bits (x + y).
Definition mul (bits x y : Z) : Z := wrap bits (x * y).
Definition shr (x n : Z) : Z := Z.shiftr x n.
Definition shl (bits x n : Z) : Z := wrap bits (Z.shiftl x n).

End IndexT.

(** ** Shapes and tensor views (tensor.h) *)

(** [Shape<dim>]: the extents [shape_[0] .. shape_[dim-1]], lowest
    dimension first, and the stride of the lowest dimension. *)
Record Shape : Type := mkShape {
  shape_ : list Z;
  stride_ : Z
}.

(** [Shape::operator[]] *)
Definition extent (s : Shape) (i : nat) : Z := nth i (shape_ s) 0.

Definition with_stride (s : Shape) (st : Z) : Shape :=
  {| shape_ := shape_ s; stride_ := st |}.

Definition product (l : list Z) : Z := fold_left Z.mul l 1.

(** Modelled from the spec: [Shape::MSize] is declared in tensor.h; it is
    "the total padded element count required by shape", the stride of the
    lowest dimension times the extents of all the higher dimensions. *)
Definition MSize (s : Shape) : Z := stride_ s * product (tl (shape_ s)).

(** [Tensor<device,dim>]: a non-owning view, a base pointer and a shape.
    Pointers are element addresses: [p + k] is the address of the [k]-th
    [real_t] after [p]. *)
Record Tensor : Type := mkTensor {
  dptr : Z;
  shape : Shape
}.

(** Modelled from the spec: element [mat[i][j]] of a 2-D view lives at
    [dptr + i * stride_ + j] ("obtain/write scalar elements by index"). *)
Definition cell (mat : Tensor) (i j : Z) : Z :=
  dptr mat + i * stride_ (shape mat) + j.

(** ** Fatal assertions

    [utils::Assert] terminates the process with a message when its
    condition is false. *)
Inductive outcome (A : Type) : Type :=
  | Ok (a : A)
  | Fatal (msg : string).
Arguments Ok {A} a.
Arguments Fatal {A} msg.

(** ** The scratch buffer *)

(** The members of an engine that [GetTemp] reads: the 1-D scratch tensor
    [buffer_], of extent [kRandBufferSize]. *)
Record Random : Type := mkRandom {
  buffer_ : Tensor
}.

Definition capacity (e : Random) : Z := extent (shape (buffer_ e)) 0.

(** The constructors' [buffer_.shape[0] = kRandBufferSize;
    AllocSpace(buffer_)], with the address [base] that [AllocSpace]
    returns. *)
Definition new_buffer (kRandBufferSize base : Z) : Tensor :=
  {| dptr := base;
     shape := {| shape_ := [kRandBufferSize]; stride_ := kRandBufferSize |} |}.

(** ** The platform: what tensor.h, <cstdlib> and <cmath> declare

    [index_t] has [index_bits] bits.  [real_t] is [float] or [double],
    chosen in tensor.h by [MSHADOW_SINGLE_PRECISION]: an IEEE 754 binary
    format of precision [real_prec] and exponent bound [real_emax], on
    which the arithmetic is the one SpecFloat specifies (round to nearest,
    ties to even).  [srand] and [rand] act on the generator state of the C
    library, which is one per process; [rand] returns an [int] between 0
    and [RAND_MAX].  [std_log] is [std::log] at type [real_t]. *)
Class Platform : Type := {
  index_bits : Z;
  real_prec : Z;
  real_emax : Z;
  RAND_MAX : Z;
  RandState : Type;
  srand : Z -> RandState;
  rand : RandState -> Z * RandState;
  rand_range : forall g, 0 <= fst (rand g) <= RAND_MAX;
  std_log : spec_float -> spec_float;
  kRandBufferSize : Z
}.

(** Modelled from the spec: [Tensor::FlatTo2D] is declared in tensor.h; it
    views an N-dimensional tensor "as an outer axis (columns) times one
    contiguous inner axis (rows)": extent 0 and the stride are kept, extent
    1 is the product of the remaining extents (an [index_t]). *)
Definition FlatTo2D {P : Platform} (t : Tensor) : Tensor :=
  {| dptr := dptr t;
     shape := {| shape_ := [extent (shape t) 0;
                            fold_left (IndexT.mul index_bits)
                              (tl (shape_ (shape t))) 1];
                 stride_ := stride_ (shape t) |} |}.

(** ** [GetTemp] *)

(** [((shape[0] + 3) >> 2) << 2] on [index_t]. *)
Definition padded_stride {P : Platform} (shape0 : Z) : Z :=
  IndexT.shl index_bits (IndexT.shr (IndexT.add index_bits shape0 3) 2) 2.

Module Cpu.

(** [Random<cpu>::GetTemp] *)
Definition GetTemp {P : Platform} (e : Random) (shape : Shape)
    : outcome Tensor :=
  let shape := with_stride shape (padded_stride (extent shape 0)) in
  if MSize shape <? capacity e
  then Ok {| dptr := dptr (buffer_ e); shape := shape |}
  else Fatal "gaussian: random engine buffer do not have enough memory".

End Cpu.

Module Gpu.

(** [Random<gpu>::GetTemp] *)
Definition GetTemp {P : Platform} (e : Random) (shape : Shape) : Tensor :=
  let shape := with_stride shape (padded_stride (extent shape 0)) in
  {| dptr := dptr (buffer_ e); shape := shape |}.

End Gpu.

(** Conversion between binary formats, rounding once. *)
Definition SFconvert (prec emax : Z) (x : spec_float) : spec_float :=
  match x with
  | S754_finite s m e => binary_normalize prec emax (cond_Zopp s (Zpos m)) e s
  | _ => x
  end.

Definition SFzero : spec_float := S754_zero false.

(** [double], for the literals [1.0] and [2.0] of [RandNext2]. *)
Module Double.
Definition prec : Z := 53.
Definition emax : Z := 1024.
Definition of_int (z : Z) : spec_float := binary_normalize prec emax z 0 false.
Definition add : spec_float -> spec_float -> spec_float := SFadd prec emax.
Definition div : spec_float -> spec_float -> spec_float := SFdiv prec emax.
Definition of_real : spec_float -> spec_float := SFconvert prec emax.
End Double.

(** Iteration: [for (index_t i = 0; i < n; ++i) body]. *)
Fixpoint for_from {S : Type} (body : Z -> S -> S) (i : Z) (n : nat) (s : S)
    : S :=
  match n with
  | O => s
  | Datatypes.S n' => for_from body (i + 1) n' (body i s)
  end.

Definition for_loop {S : Type} (n : Z) (body : Z -> S -> S) (s : S) : S :=
  for_from body 0 (Z.to_nat n) s.

(** The same with a body that may not return. *)
Fixpoint for_from_opt {S : Type} (body : Z -> S -> option S) (i : Z) (n : nat)
    (s : S) : option S :=
  match n with
  | O => Some s
  | Datatypes.S n' =>
      match body i s with
      | Some s' => for_from_opt body (i + 1) n' s'
      | None => None
      end
  end.

Definition for_loop_opt {S : Type} (n : Z) (body : Z -> S -> option S) (s : S)
    : option S :=
  for_from_opt body 0 (Z.to_nat n) s.

(** ** [Random<cpu>]

    The members of [Random<cpu>] other than [GetTemp], in the branch
    compiled without MKL.  The object holds no generator of its own:
    [srand] and [rand] act on the generator state of the process, which is
    part of the [World] the members transform. *)
Section Engine.

Context {P : Platform}.

Definition real_t : Type := spec_float.

(** [static_cast<real_t>(z)] and the literals [0.0f], [1.0f], [2.0f]. *)
Definition real_of_int (z : Z) : real_t :=
  binary_normalize real_prec real_emax z 0 false.

Definition radd : real_t -> real_t -> real_t := SFadd real_prec real_emax.
Definition rsub : real_t -> real_t -> real_t := SFsub real_prec real_emax.
Definition rmul : real_t -> real_t -> real_t := SFmul real_prec real_emax.
Definition rdiv : real_t -> real_t -> real_t := SFdiv real_prec real_emax.
Definition rsqrt : real_t -> real_t := SFsqrt real_prec real_emax.
Definition real_of_double : spec_float -> real_t :=
  SFconvert real_prec real_emax.

(** The state the engine acts on: the memory, from element addresses to
    [real_t] values, and the generator state behind [rand]. *)
Record World : Type := mkWorld {
  heap : gmap Z real_t;
  rng : RandState
}.

Definition store (p : Z) (v : real_t) (g : RandState) (w : World) : World :=
  {| heap := <[p := v]> (heap w); rng := g |}.

(** [RandNext]:
    [static_cast<real_t>(rand()) / (static_cast<real_t>(RAND_MAX)+1.0f)] *)
Definition RandNext (g : RandState) : real_t * RandState :=
  let (r, g') := rand g in
  (rdiv (real_of_int r) (radd (real_of_int RAND_MAX) (real_of_int 1)), g').

(** The divisor of [RandNext2]: [static_cast<real_t>(RAND_MAX) + 2.0], a
    [double]. *)
Definition RandNext2_den : spec_float :=
  Double.add (Double.of_real (real_of_int RAND_MAX)) (Double.of_int 2).

(** [RandNext2]:
    [(static_cast<real_t>(rand()) + 1.0) / (static_cast<real_t>(RAND_MAX) + 2.0)];
    the literals are [double], so is the arithmetic, and the quotient is
    converted to [real_t] on return. *)
Definition RandNext2 (g : RandState) : real_t * RandState :=
  let (r, g') := rand g in
  (real_of_double
     (Double.div (Double.add (Double.of_real (real_of_int r)) (Double.of_int 1))
                 RandNext2_den),
   g').

(** One pass through the body of the [do ... while] of [SampleNormal2D]. *)
Definition attempt (g : RandState) : real_t * real_t * real_t * RandState :=
  let (u, g1) := RandNext2 g in
  let x := rsub (rmul (real_of_int 2) u) (real_of_int 1) in
  let (v, g2) := RandNext2 g1 in
  let y := rsub (rmul (real_of_int 2) v) (real_of_int 1) in
  let s := radd (rmul x x) (rmul y y) in
  (x, y, s, g2).

(** The loop condition [s >= 1.0f || s == 0.0f]. *)
Definition rejected (s : real_t) : bool :=
  SFleb (real_of_int 1) s || SFeqb s SFzero.

(** The [do ... while] loop of [SampleNormal2D], at most [fuel] passes. *)
Fixpoint SampleNormal2D_loop (fuel : nat) (g : RandState)
    : option (real_t * real_t * real_t * RandState) :=
  match fuel with
  | O => None
  | S fuel' =>
      let '(x, y, s, g') := attempt g in
      if rejected s then SampleNormal2D_loop fuel' g' else Some (x, y, s, g')
  end.

(** The operand of [std::sqrt]: [-2.0f * std::log(s) / s]. *)
Definition sqrt_arg (s : real_t) : real_t :=
  rdiv (rmul (SFopp (real_of_int 2)) (std_log s)) s.

(** What follows the loop: [t = std::sqrt(...); xx = x * t; yy = y * t]. *)
Definition box_muller (x y s : real_t) : real_t * real_t :=
  let t := rsqrt (sqrt_arg s) in
  (rmul x t, rmul y t).

(** [SampleNormal2D(xx, yy)]: the two outputs and the generator state. *)
Definition SampleNormal2D (fuel : nat) (g : RandState)
    : option (real_t * real_t * RandState) :=
  match SampleNormal2D_loop fuel g with
  | Some (x, y, s, g') => let (xx, yy) := box_muller x y s in Some (xx, yy, g')
  | None => None
  end.

(** The inner loop of [SampleUniform], for row [i] of [mat]. *)
Definition SampleUniform_row (mat : Tensor) (a b : real_t) (i : Z) (w : World)
    : World :=
  for_loop (extent (shape mat) 0)
    (fun j w =>
       let (r, g') := RandNext (rng w) in
       store (cell mat i j) (radd (rmul r (rsub b a)) a) g' w)
    w.

(** [Random<cpu>::SampleUniform(dst, a, b)] *)
Definition SampleUniform (dst : Tensor) (a b : real_t) (w : World) : World :=
  let mat := FlatTo2D dst in
  for_loop (extent (shape mat) 1) (fun i w => SampleUniform_row mat a b i w) w.

(** The body of the inner loop of [SampleGaussian] on [(g1, g2)] and the
    world. *)
Definition SampleGaussian_body (fuel : nat) (mat : Tensor) (mu sigma : real_t)
    (i j : Z) (st : real_t * real_t * World)
    : option (real_t * real_t * World) :=
  let '(g1, g2, w) := st in
  if Z.land j 1 =? 0 then
    match SampleNormal2D fuel (rng w) with
    | Some (g1', g2', g') =>
        Some (g1', g2', store (cell mat i j) (radd mu (rmul g1' sigma)) g' w)
    | None => None
    end
  else
    Some (g1, g2, store (cell mat i j) (radd mu (rmul g2 sigma)) (rng w) w).

(** The inner loop of [SampleGaussian], for row [i] of [mat], with its
    locals [g1 = 0.0f, g2 = 0.0f]. *)
Definition SampleGaussian_row (fuel : nat) (mat : Tensor) (mu sigma : real_t)
    (i : Z) (w : World) : option World :=
  match for_loop_opt (extent (shape mat) 0)
          (SampleGaussian_body fuel mat mu sigma i) (SFzero, SFzero, w) with
  | Some (_, _, w') => Some w'
  | None => None
  end.

(** [Random<cpu>::SampleGaussian(dst, mu, sigma)] *)
Definition SampleGaussian (fuel : nat) (dst : Tensor) (mu sigma : real_t)
    (w : World) : option World :=
  let mat := FlatTo2D dst in
  for_loop_opt (extent (shape mat) 1)
    (fun i w => SampleGaussian_row fuel mat mu sigma i w) w.

(** [Random<cpu>::Random(seed)]: [srand(seed)], then the scratch buffer is
    allocated at the address [base]. *)
Definition construct (seed base : Z) (w : World) : Random * World :=
  ({| buffer_ := new_buffer kRandBufferSize base |},
   {| heap := heap w; rng := srand seed |}).

(** [Random<cpu>::uniform(shape)]; the expression returned wraps [temp]. *)
Definition uniform (e : Random) (shape : Shape) (w : World)
    : outcome (Tensor * World) :=
  match Cpu.GetTemp e shape with
  | Ok temp => Ok (temp, SampleUniform temp (real_of_int 0) (real_of_int 1) w)
  | Fatal msg => Fatal msg
  end.

(** [Random<cpu>::gaussian(shape)] *)
Definition gaussian (fuel : nat) (e : Random) (shape : Shape) (w : World)
    : option (outcome (Tensor * World)) :=
  match Cpu.GetTemp e shape with
  | Ok temp =>
      match SampleGaussian fuel temp (real_of_int 0) (real_of_int 1) w with
      | Some w' => Some (Ok (temp, w'))
      | None => None
      end
  | Fatal msg => Some (Fatal msg)
  end.

End Engine.

(** ** Platforms to run the model on *)

(** A stand-in for [std::log]: the logarithm of [m * 2^e] in fixed point
    with 64 fractional bits, from [ln y = 2 atanh ((y-1)/(y+1))] on
    [y] in [[1,2)], then rounded to the format. *)
Module LogApprox.

Definition scale : Z := 2 ^ 64.
Definition ln2 : Z := 12786308645202655660.

Fixpoint atanh_series (n : nat) (k zpow z2 acc : Z) : Z :=
  match n with
  | O => acc
  | S n' => atanh_series n' (k + 2) (zpow * z2 / scale) z2 (acc + zpow / k)
  end.

Definition ln_fix (m : positive) (e : Z) : Z :=
  let d := Zpos (digits2_pos m) in
  let h := 2 ^ (d - 1) in
  let z := (Zpos m - h) * scale / (Zpos m + h) in
  2 * atanh_series 24 1 z (z * z / scale) 0 + (e + d - 1) * ln2.

Definition log (prec emax : Z) (x : spec_float) : spec_float :=
  match x with
  | S754_nan => S754_nan
  | S754_zero _ => S754_infinity true
  | S754_infinity false => x
  | S754_infinity true => S754_nan
  | S754_finite true _ _ => S754_nan
  | S754_finite false m e => binary_normalize prec emax (ln_fix m e) (-64) false
  end.

End LogApprox.

(** A 32-bit [index_t] and [float] as [real_t], with the generator the C
    standard gives as an example ([RAND_MAX] is 32767; [unsigned long]
    taken as 32 bits). *)
Program Definition iso_c_float : Platform :=
  {| index_bits := 32;
     real_prec := 24;
     real_emax := 128;
     RAND_MAX := 32767;
     RandState := Z;
     srand := fun seed => seed mod 2 ^ 32;
     rand := fun next =>
       let next' := (next * 1103515245 + 12345) mod 2 ^ 32 in
       ((next' / 65536) mod 32768, next');
     std_log := LogApprox.log 24 128;
     kRandBufferSize := 1000000 |}.
Next Obligation.
  intros next. cbn [fst].
  pose proof (Z.mod_pos_bound ((next * 1103515245 + 12345) mod 2 ^ 32 / 65536)
                32768 ltac:(lia)).
  lia.
Qed.

(** A 32-bit [index_t] and [float] as [real_t], with the linear
    congruential generator of glibc ([TYPE_0] of random_r.c; [RAND_MAX] is
    2147483647). *)
Program Definition glibc_lcg_float : Platform :=
  {| index_bits := 32;
     real_prec := 24;
     real_emax := 128;
     RAND_MAX := 2147483647;
     RandState := Z;
     srand := fun seed => if seed =? 0 then 1 else seed;
     rand := fun state =>
       let state' := (state * 1103515245 + 12345) mod 2 ^ 31 in
       (state', state');
     std_log := LogApprox.log 24 128;
     kRandBufferSize := 1000000 |}.
Next Obligation.
  intros state. cbn [fst].
  pose proof (Z.mod_pos_bound (state * 1103515245 + 12345) (2 ^ 31) ltac:(lia)).
  change (2 ^ 31) with 2147483648 in *.
  lia.
Qed.

(** The same generator with [double] as [real_t]
    ([MSHADOW_SINGLE_PRECISION] set to 0). *)
Program Definition glibc_lcg_double : Platform :=
  {| index_bits := 32;
     real_prec := 53;
     real_emax := 1024;
     RAND_MAX := 2147483647;
     RandState := Z;
     srand := fun seed => if seed =? 0 then 1 else seed;
     rand := fun state =>
       let state' := (state * 1103515245 + 12345) mod 2 ^ 31 in
       (state', state');
     std_log := LogApprox.log 53 1024;
     kRandBufferSize := 1000000 |}.
Next Obligation.
  intros state. cbn [fst].
  pose proof (Z.mod_pos_bound (state * 1103515245 + 12345) (2 ^ 31) ltac:(lia)).
  change (2 ^ 31) with 2147483648 in *.
  lia.
Qed.

(** ** Vocabulary of the statements *)

(** [st] is the smallest multiple of 4 that is at least [n]. *)
Definition least_multiple_of_4_geq (n st : Z) : Prop :=
  st mod 4 = 0 /\ n <= st /\ forall m, m mod 4 = 0 -> n <= m -> st <= m.

(** [x] is a number (not NaN) whose sign bit is [sx]. *)
Definition has_sign (sx : bool) (x : spec_float) : Prop :=
  match x with
  | S754_zero s | S754_infinity s | S754_finite s _ _ => s = sx
  | S754_nan => False
  end.

Definition SFfinite_pos (x : spec_float) : bool :=
  match x with
  | S754_finite false _ _ => true
  | _ => false
  end.

(** [x] is finite and not zero. *)
Definition SFfinite (x : spec_float) : bool :=
  match x with
  | S754_finite _ _ _ => true
  | _ => false
  end.

Section EngineVocabulary.

Context {P : Platform}.

(** The literals [1.0f] and [2.0f] and the divisor of [RandNext2] are
    positive finite numbers of their formats, as they are whenever [real_t]
    is [float] or [double] and [RAND_MAX] is an [int]. *)
Definition constants_finite : bool :=
  SFfinite_pos (real_of_int 1) && SFfinite_pos (real_of_int 2)
  && SFfinite_pos RandNext2_den.

(** The addresses of the elements of a 2-D view. *)
Definition in_footprint (mat : Tensor) (p : Z) : Prop :=
  exists i j, 0 <= i < extent (shape mat) 1 /\ 0 <= j < extent (shape mat) 0
              /\ p = cell mat i j.

(** No element of [dst] lies in the scratch buffer of [e]. *)
Definition buffer_disjoint (e : Random) (dst : Tensor) : Prop :=
  forall k, 0 <= k < capacity e ->
            ~ in_footprint (FlatTo2D dst) (dptr (buffer_ e) + k).

(** The elements of a 2-D view, row after row, as memory holds them. *)
Definition read_tensor (h : gmap Z real_t) (mat : Tensor)
    : list (option real_t) :=
  flat_map (fun i => map (fun j => h !! cell mat i j)
                         (seqZ 0 (extent (shape mat) 0)))
           (seqZ 0 (extent (shape mat) 1)).

(** Two memories hold the same at the offsets in [A] from the bases [d1]
    and [d2]. *)
Definition agree (d1 d2 : Z) (h1 h2 : gmap Z real_t) (A : Z -> Prop) : Prop :=
  forall off, A off -> h1 !! (d1 + off) = h2 !! (d2 + off).

(** The offsets of the elements of a 2-D view from its base. *)
Definition offsets (mat : Tensor) (off : Z) : Prop :=
  exists i j, 0 <= i < extent (shape mat) 1 /\ 0 <= j < extent (shape mat) 0
              /\ off = i * stride_ (shape mat) + j.

(** The offsets written in the rows of [mat] before row [i]. *)
Definition rows_before (mat : Tensor) (i : Z) (off : Z) : Prop :=
  exists i' j, 0 <= i' < i /\ 0 <= j < extent (shape mat) 0
               /\ off = i' * stride_ (shape mat) + j.

(** The offsets written in row [i] of [mat] before column [j]. *)
Definition row_before (mat : Tensor) (i j : Z) (off : Z) : Prop :=
  exists j', 0 <= j' < j /\ off = i * stride_ (shape mat) + j'.

(** The offsets of the elements of row [i] of [mat]. *)
Definition row_offsets (mat : Tensor) (i : Z) (off : Z) : Prop :=
  exists j, 0 <= j < extent (shape mat) 0 /\ off = i * stride_ (shape mat) + j.

(** Two worlds with the same generator state whose memories hold the same
    at the offsets in [A] of the views [mat1] and [mat2]. *)
Definition related (mat1 mat2 : Tensor) (A : Z -> Prop) (w1 w2 : World)
    : Prop :=
  rng w1 = rng w2 /\ agree (dptr mat1) (dptr mat2) (heap w1) (heap w2) A.

(** Results with the same output and the same generator state. *)
Definition same_result {A : Type} (r1 r2 : A * World) : Prop :=
  fst r1 = fst r2 /\ rng (snd r1) = rng (snd r2).

(** Two outcomes fail alike or succeed with related results. *)
Inductive outcome_rel {A B : Type} (R : A -> B -> Prop)
    : outcome A -> outcome B -> Prop :=
  | outcome_rel_Ok (a : A) (b : B) : R a b -> outcome_rel R (Ok a) (Ok b)
  | outcome_rel_Fatal (msg : string) : outcome_rel R (Fatal msg) (Fatal msg).

(** *** The Box-Muller sampler in the words of the spec (4.2) *)

(** "a generator rescaled as (rand()+1)/(RAND_MAX+2)" *)
Definition open_unit_draw (r : Z) : real_t :=
  real_of_double
    (Double.div
       (Double.add (Double.of_real (real_of_int r)) (Double.of_int 1))
       (Double.add (Double.of_real (real_of_int RAND_MAX)) (Double.of_int 2))).

(** "maps to x=2u-1, y=2v-1" *)
Definition disk_coordinate (u : real_t) : real_t :=
  rsub (rmul (real_of_int 2) u) (real_of_int 1).

(** "computes s=x^2+y^2" *)
Definition squared_norm (x y : real_t) : real_t := radd (rmul x x) (rmul y y).

(** "t=sqrt(-2 ln(s)/s)" *)
Definition polar_factor (s : real_t) : real_t :=
  rsqrt (rdiv (rmul (SFopp (real_of_int 2)) (std_log s)) s).

(** "rejects/retries while s>=1 or s==0.  On acceptance computes t and
    returns (x t, y t)". *)
Inductive BoxMuller : RandState -> real_t * real_t * RandState -> Prop :=
  | BoxMuller_accept (g g1 g2 : RandState) (r1 r2 : Z) (x y s t : real_t) :
      rand g = (r1, g1) -> rand g1 = (r2, g2) ->
      x = disk_coordinate (open_unit_draw r1) ->
      y = disk_coordinate (open_unit_draw r2) ->
      s = squared_norm x y ->
      SFleb (real_of_int 1) s = false -> SFeqb s SFzero = false ->
      t = polar_factor s ->
      BoxMuller g (rmul x t, rmul y t, g2)
  | BoxMuller_retry (g g1 g2 : RandState) (r1 r2 : Z) (x y s : real_t)
        (res : real_t * real_t * RandState) :
      rand g = (r1, g1) -> rand g1 = (r2, g2) ->
      x = disk_coordinate (open_unit_draw r1) ->
      y = disk_coordinate (open_unit_draw r2) ->
      s = squared_norm x y ->
      SFleb (real_of_int 1) s = true \/ SFeqb s SFzero = true ->
      BoxMuller g2 res ->
      BoxMuller g res.

(** *** Rows of [SampleGaussian] in the words of the spec (4.1) *)

(** [k] pairs from [k] successive calls of [SampleNormal2D]. *)
Fixpoint draw_pairs (fuel k : nat) (g : RandState)
    : option (list (real_t * real_t) * RandState) :=
  match k with
  | O => Some ([], g)
  | S k' =>
      match SampleNormal2D fuel g with
      | Some (g1, g2, g') =>
          match draw_pairs fuel k' g' with
          | Some (ps, g'') => Some ((g1, g2) :: ps, g'')
          | None => None
          end
      | None => None
      end
  end.

(** "writing mu + g*sigma for each scalar, one pair serving two consecutive
    inner-axis positions". *)
Definition gaussian_scalars (mu sigma : real_t) (ps : list (real_t * real_t))
    : list real_t :=
  flat_map
    (fun p => [radd mu (rmul (fst p) sigma); radd mu (rmul (snd p) sigma)])
    ps.

(** The values [vs] written to row [i] of [mat] from column [j] on. *)
Fixpoint write_row (mat : Tensor) (i j : Z) (vs : list real_t)
    (h : gmap Z real_t) : gmap Z real_t :=
  match vs with
  | [] => h
  | v :: vs' => write_row mat i (j + 1) vs' (<[cell mat i j := v]> h)
  end.

(** The rows [rows] written one after the other, the first as row [i]. *)
Fixpoint write_rows (mat : Tensor) (i : Z) (rows : list (list real_t))
    (h : gmap Z real_t) : gmap Z real_t :=
  match rows with
  | [] => h
  | r :: rows' => write_rows mat (i + 1) rows' (write_row mat i 0 r h)
  end.

(** The pairs that serve row [i] when every row takes [k] pairs of [ps]. *)
Definition row_pairs (k : nat) (ps : list (real_t * real_t)) (i : nat)
    : list (real_t * real_t) :=
  take k (drop (i * k) ps).

(** "If the inner-axis extent is odd, the final generated pair's second
    value is discarded": a row of [n] elements is the first [n] scalars of
    its pairs. *)
Definition gaussian_row (mu sigma : real_t) (n : nat)
    (ps : list (real_t * real_t)) : list real_t :=
  take n (gaussian_scalars mu sigma ps).

(** The [rows] rows of [n] elements that the pairs [ps] give, [k] pairs to
    a row. *)
Definition gaussian_rows (mu sigma : real_t) (n k rows : nat)
    (ps : list (real_t * real_t)) : list (list real_t) :=
  map (fun i => gaussian_row mu sigma n (row_pairs k ps i)) (seq 0 rows).

(** *** Sequences of calls on one engine *)

Inductive temp_kind : Type := Uniform | Gaussian.

(** [uniform(shape)] or [gaussian(shape)]. *)
Definition temp_expr (fuel : nat) (k : temp_kind) (e : Random) (shape : Shape)
    (w : World) : option (outcome (Tensor * World)) :=
  match k with
  | Uniform => Some (uniform e shape w)
  | Gaussian => gaussian fuel e shape w
  end.

Inductive call : Type :=
  | CallSampleUniform (dst : Tensor) (a b : real_t)
  | CallSampleGaussian (dst : Tensor) (mu sigma : real_t)
  | CallTemp (k : temp_kind) (shape : Shape).

(** One call, with the values it leaves in its destination as output. *)
Definition run_call (fuel : nat) (e : Random) (c : call) (w : World)
    : option (outcome (list (option real_t) * World)) :=
  match c with
  | CallSampleUniform dst a b =>
      let w' := SampleUniform dst a b w in
      Some (Ok (read_tensor (heap w') (FlatTo2D dst), w'))
  | CallSampleGaussian dst mu sigma =>
      match SampleGaussian fuel dst mu sigma w with
      | Some w' => Some (Ok (read_tensor (heap w') (FlatTo2D dst), w'))
      | None => None
      end
  | CallTemp k shape =>
      match temp_expr fuel k e shape w with
      | Some (Ok (temp, w')) =>
          Some (Ok (read_tensor (heap w') (FlatTo2D temp), w'))
      | Some (Fatal msg) => Some (Fatal msg)
      | None => None
      end
  end.

(** A sequence of calls; the outputs of the calls in order. *)
Fixpoint run_calls (fuel : nat) (e : Random) (cs : list call) (w : World)
    : option (outcome (list (list (option real_t)) * World)) :=
  match cs with
  | [] => Some (Ok ([], w))
  | c :: cs' =>
      match run_call fuel e c w with
      | Some (Ok (out, w')) =>
          match run_calls fuel e cs' w' with
          | Some (Ok (outs, w'')) => Some (Ok (out :: outs, w''))
          | other => other
          end
      | Some (Fatal msg) => Some (Fatal msg)
      | None => None
      end
  end.

(** What a run shows: its outputs, a fatal assertion, or no result. *)
Definition observable {A : Type} (r : option (outcome (A * World)))
    : option (outcome A) :=
  match r with
  | Some (Ok (a, _)) => Some (Ok a)
  | Some (Fatal msg) => Some (Fatal msg)
  | None => None
  end.

End EngineVocabulary.

(** ** Vocabulary of the further properties *)

Section MoreVocabulary.

Context {P : Platform}.

(** The generator state after [k] calls of [rand]. *)
Fixpoint draws (k : nat) (g : RandState) : RandState :=
  match k with
  | O => g
  | S k' => draws k' (snd (rand g))
  end.

(** [r * (b - a) + a], what [SampleUniform] stores for [r = RandNext()]. *)
Definition rescale (a b r : real_t) : real_t := radd (rmul r (rsub b a)) a.

(** What [SampleUniform] stores for the draw that follows [k] earlier draws
    from the state [g]. *)
Definition uniform_value (a b : real_t) (k : nat) (g : RandState) : real_t :=
  rescale a b (fst (RandNext (draws k g))).

(** The elements of the rows of [mat] before row [i] hold the values of
    the draws from [g] in row-major order. *)
Definition row_major_upto (mat : Tensor) (a b : real_t) (g : RandState)
    (i : Z) (h : gmap Z real_t) : Prop :=
  forall i' j', 0 <= i' < i -> 0 <= j' < extent (shape mat) 0 ->
    h !! cell mat i' j'
    = Some (uniform_value a b (Z.to_nat (i' * extent (shape mat) 0 + j')) g).

(** The same for the elements of row [i] before column [j]. *)
Definition row_major_row (mat : Tensor) (a b : real_t) (g : RandState)
    (i j : Z) (h : gmap Z real_t) : Prop :=
  forall j', 0 <= j' < j ->
    h !! cell mat i j'
    = Some (uniform_value a b (Z.to_nat (i * extent (shape mat) 0 + j')) g).

(** The literal [1.0f] and the divisor of [RandNext] are positive finite
    numbers, as they are whenever [real_t] is [float] or [double] and
    [RAND_MAX] is an [int]. *)
Definition uniform_constants_finite : bool :=
  SFfinite_pos (real_of_int 1)
  && SFfinite_pos (radd (real_of_int RAND_MAX) (real_of_int 1)).

(** Memory holds, at every offset in [A] from the base [d], a value that
    satisfies [Q]. *)
Definition filled (Q : real_t -> Prop) (d : Z) (h : gmap Z real_t)
    (A : Z -> Prop) : Prop :=
  forall off, A off -> exists v, h !! (d + off) = Some v /\ Q v.

(** The addresses of the scratch buffer of [e]. *)
Definition in_buffer (e : Random) (p : Z) : Prop :=
  dptr (buffer_ e) <= p < dptr (buffer_ e) + capacity e.

(** No extent of the shape is negative. *)
Definition extents_nonneg (s : Shape) : Prop :=
  Forall (fun n => 0 <= n) (shape_ s).

(** The padded element count [GetTemp] compares with the capacity. *)
Definition padded_count (s : Shape) : Z :=
  MSize (with_stride s (padded_stride (extent s 0))).

(** The message of the assertion of [Random<cpu>::GetTemp]. *)
Definition capacity_message : string :=
  "gaussian: random engine buffer do not have enough memory".

(** The number of pairs a row of [n] elements draws. *)
Definition pairs_per_row (n : Z) : nat := Nat.div2 (S (Z.to_nat n)).

End MoreVocabulary.

(** * Part II: lemmas and theorems *)

(** ** Stride padding *)

Lemma padded_stride_no_wrap {P : Platform} (n : Z) :
  0 <= n -> n + 3 <= IndexT.max index_bits ->
  padded_stride n = 4 * ((n + 3) / 4).
Proof.
  intros Hn Hmax.
  unfold padded_stride, IndexT.shl, IndexT.shr, IndexT.add, IndexT.wrap.
  unfold IndexT.max, IndexT.modulus in *.
  set (M := 2 ^ index_bits) in *.
  rewrite (Z.mod_small (n + 3)) by lia.
  rewrite Z.shiftr_div_pow2, Z.shiftl_mul_pow2 by lia.
  change (2 ^ 2) with 4.
  pose proof (Z.div_mod (n + 3) 4 ltac:(lia)) as Hdm.
  pose proof (Z.mod_pos_bound (n + 3) 4 ltac:(lia)) as Hb.
  rewrite Z.mod_small; lia.
Qed.

Lemma round_up_least (n : Z) :
  least_multiple_of_4_geq n (4 * ((n + 3) / 4)).
Proof.
  unfold least_multiple_of_4_geq.
  pose proof (Z.div_mod (n + 3) 4 ltac:(lia)) as Hdm.
  pose proof (Z.mod_pos_bound (n + 3) 4 ltac:(lia)) as Hb.
  split; [|split].
  - rewrite Z.mul_comm. apply Z.mod_mul. lia.
  - lia.
  - intros m Hm Hle.
    pose proof (Z.div_mod m 4 ltac:(lia)) as Hdm'.
    rewrite Hm in Hdm'.
    assert ((n + 3) / 4 <= m / 4); [|lia].
    apply Z.div_le_lower_bound; lia.
Qed.

(** The stride [GetTemp] computes does not depend on the engine variant. *)
Lemma GetTemp_cpu_gpu {P : Platform} (e : Random) (s : Shape) (t : Tensor) :
  Cpu.GetTemp e s = Ok t -> t = Gpu.GetTemp e s.
Proof.
  unfold Cpu.GetTemp, Gpu.GetTemp.
  destruct (MSize _ <? capacity e); congruence.
Qed.

(** C2, as amended: for every requested shape whose [shape[0] + 3] fits
    [index_t], the leading-axis stride of the view [GetTemp] returns, on
    either engine variant, is the smallest multiple of 4 that is at least
    [shape[0]]. *)
Theorem GetTemp_stride_padding {P : Platform} (e : Random) (s : Shape) :
  0 <= extent s 0 -> extent s 0 + 3 <= IndexT.max index_bits ->
  least_multiple_of_4_geq (extent s 0) (stride_ (shape (Gpu.GetTemp e s)))
  /\ forall t, Cpu.GetTemp e s = Ok t ->
               least_multiple_of_4_geq (extent s 0) (stride_ (shape t)).
Proof.
  intros H0 Hmax.
  assert (least_multiple_of_4_geq (extent s 0)
            (stride_ (shape (Gpu.GetTemp e s)))) as Hgpu.
  { cbn. rewrite padded_stride_no_wrap by assumption. apply round_up_least. }
  split; [exact Hgpu|].
  intros t Ht. rewrite (GetTemp_cpu_gpu e s t Ht). exact Hgpu.
Qed.

Lemma GetTemp_stride_padding_witness :
  let P := iso_c_float in
  let e := {| buffer_ := new_buffer 16 0 |} in
  let s := {| shape_ := [5; 2]; stride_ := 5 |} in
  least_multiple_of_4_geq 5 (stride_ (shape (Gpu.GetTemp e s)))
  /\ forall t, Cpu.GetTemp e s = Ok t ->
               least_multiple_of_4_geq 5 (stride_ (shape t)).
Proof.
  intros P e s.
  apply (GetTemp_stride_padding e s); vm_compute; congruence.
Defined.

(** C2, as stated, fails where [shape[0] + 3] wraps around: with a 32-bit
    [index_t], for [shape[0] = 2^32 - 1] both variants return a view of
    stride 0. *)
Lemma GetTemp_stride_wraps :
  let P := iso_c_float in
  let e := {| buffer_ := new_buffer 16 0 |} in
  let s := {| shape_ := [4294967295]; stride_ := 4294967295 |} in
  stride_ (shape (Gpu.GetTemp e s)) = 0
  /\ Cpu.GetTemp e s = Ok (Gpu.GetTemp e s)
  /\ ~ least_multiple_of_4_geq (extent s 0) (stride_ (shape (Gpu.GetTemp e s))).
Proof.
  intros P e s. split; [reflexivity|]. split; [reflexivity|].
  intros (_ & Hle & _). vm_compute in Hle. apply Hle. reflexivity.
Qed.

(** ** The capacity check *)

(** [Random<cpu>::GetTemp] fails exactly when the padded element count
    reaches the capacity of the scratch buffer, and never changes the
    buffer. *)
Lemma Cpu_GetTemp_checked {P : Platform} (e : Random) (s : Shape) :
  let n := MSize (with_stride s (padded_stride (extent s 0))) in
  (capacity e <= n ->
   Cpu.GetTemp e s
   = Fatal "gaussian: random engine buffer do not have enough memory")
  /\ (n < capacity e ->
      Cpu.GetTemp e s =
        Ok {| dptr := dptr (buffer_ e);
              shape := with_stride s (padded_stride (extent s 0)) |}).
Proof.
  intros n. unfold Cpu.GetTemp. fold n.
  destruct (Z.ltb_spec n (capacity e)); split; intros; try reflexivity; lia.
Qed.

(** C1 at the failing input: with a scratch buffer of 16 elements and the
    shape [[20]], of padded element count 20, [Random<cpu>::GetTemp] fails
    its assertion and [Random<gpu>::GetTemp], which has none, returns a view
    of 20 elements over the 16 of the buffer. *)
Theorem GetTemp_gpu_unchecked :
  let P := iso_c_float in
  let e := {| buffer_ := new_buffer 16 0 |} in
  let s := {| shape_ := [20]; stride_ := 20 |} in
  capacity e = 16
  /\ MSize (shape (Gpu.GetTemp e s)) = 20
  /\ Gpu.GetTemp e s
     = {| dptr := 0; shape := {| shape_ := [20]; stride_ := 20 |} |}
  /\ Cpu.GetTemp e s
     = Fatal "gaussian: random engine buffer do not have enough memory".
Proof. repeat split. Qed.

(** ** Signs through IEEE rounding *)

Section Rounding.

Variables prec emax : Z.

Lemma shr_1_nonneg (mrs : shr_record) :
  0 <= shr_m mrs -> 0 <= shr_m (shr_1 mrs).
Proof.
  destruct mrs as [m r s]; simpl.
  destruct m as [|p|p]; simpl; try lia; destruct p; simpl; lia.
Qed.

Lemma iter_pos_shr_1_nonneg (p : positive) (mrs : shr_record) :
  0 <= shr_m mrs -> 0 <= shr_m (SpecFloat.iter_pos shr_1 p mrs).
Proof.
  revert mrs.
  induction p as [p IH|p IH|]; intros mrs Hm; simpl.
  - apply IH, IH, shr_1_nonneg, Hm.
  - apply IH, IH, Hm.
  - apply shr_1_nonneg, Hm.
Qed.

Lemma shr_record_of_loc_m (m : Z) (l : location) :
  shr_m (shr_record_of_loc m l) = m.
Proof. destruct l as [|[]]; reflexivity. Qed.

Lemma shr_fexp_nonneg (m e : Z) (l : location) :
  0 <= m -> 0 <= shr_m (fst (shr_fexp prec emax m e l)).
Proof.
  intros Hm. unfold shr_fexp, shr.
  destruct (fexp prec emax (Zdigits2 m + e) - e) as [|p|p]; simpl;
    rewrite ?shr_record_of_loc_m; trivial.
  apply iter_pos_shr_1_nonneg. rewrite shr_record_of_loc_m. exact Hm.
Qed.

Lemma round_nearest_even_nonneg (m : Z) (l : location) :
  0 <= m -> 0 <= round_nearest_even m l.
Proof.
  intros Hm. destruct l as [|[]]; simpl; try lia.
  destruct (Z.even m); lia.
Qed.

Lemma binary_round_aux_sign (sx : bool) (m e : Z) (l : location) :
  0 <= m -> has_sign sx (binary_round_aux prec emax sx m e l).
Proof.
  intros Hm. unfold binary_round_aux.
  pose proof (shr_fexp_nonneg m e l Hm) as H1.
  destruct (shr_fexp prec emax m e l) as [mrs' e']. simpl in H1.
  pose proof (shr_fexp_nonneg
                (round_nearest_even (shr_m mrs') (loc_of_shr_record mrs')) e'
                loc_Exact (round_nearest_even_nonneg _ _ H1)) as H2.
  destruct (shr_fexp prec emax _ e' loc_Exact) as [mrs'' e'']. simpl in H2.
  destruct (shr_m mrs'') as [|p|p]; simpl; try reflexivity; try lia.
  destruct (e'' <=? emax - prec); reflexivity.
Qed.

Lemma binary_round_sign (sx : bool) (m : positive) (e : Z) :
  has_sign sx (binary_round prec emax sx m e).
Proof.
  unfold binary_round.
  destruct (shl_align m e _) as [mz ez].
  apply binary_round_aux_sign. lia.
Qed.

Lemma binary_normalize_not_nan (m e : Z) (sz : bool) :
  binary_normalize prec emax m e sz <> S754_nan.
Proof.
  destruct m as [|p|p]; simpl; [discriminate| |].
  - pose proof (binary_round_sign false p e) as H.
    destruct (binary_round prec emax false p e); simpl in H; congruence.
  - pose proof (binary_round_sign true p e) as H.
    destruct (binary_round prec emax true p e); simpl in H; congruence.
Qed.

Lemma binary_normalize_nonneg (m e : Z) :
  0 <= m -> has_sign false (binary_normalize prec emax m e false).
Proof.
  destruct m as [|p|p]; simpl; intros Hm; [reflexivity| |lia].
  apply binary_round_sign.
Qed.

Lemma SFconvert_sign (sx : bool) (x : spec_float) :
  has_sign sx x -> has_sign sx (SFconvert prec emax x).
Proof.
  destruct x as [s|s| |s m e]; simpl; trivial.
  intros ->. destruct sx; simpl; apply binary_round_sign.
Qed.

Lemma SFadd_nonneg (x y : spec_float) :
  has_sign false x -> has_sign false y -> has_sign false (SFadd prec emax x y).
Proof.
  destruct x as [s|s| |s m e], y as [s'|s'| |s' m' e']; simpl;
    try tauto; intros -> ->; simpl; try reflexivity.
  apply binary_round_sign.
Qed.

Lemma SFmul_sign (sx sy : bool) (x y : spec_float) :
  has_sign sx x -> has_sign sy y ->
  SFfinite x = true \/ SFfinite y = true \/ x = y ->
  has_sign (xorb sx sy) (SFmul prec emax x y).
Proof.
  destruct x as [s|s| |s m e], y as [s'|s'| |s' m' e']; simpl;
    try tauto; intros -> -> Hfin; try reflexivity;
    try (apply binary_round_aux_sign; lia);
    destruct Hfin as [Hfin|[Hfin|Hfin]]; discriminate.
Qed.

Lemma SFmul_self_nonneg (x : spec_float) :
  x <> S754_nan -> has_sign false (SFmul prec emax x x).
Proof.
  intros Hx.
  destruct x as [s|s| |s m e]; try congruence.
  - replace false with (xorb s s) by apply xorb_nilpotent.
    apply SFmul_sign; simpl; auto.
  - replace false with (xorb s s) by apply xorb_nilpotent.
    apply SFmul_sign; simpl; auto.
  - replace false with (xorb s s) by apply xorb_nilpotent.
    apply SFmul_sign; simpl; auto.
Qed.

Lemma SFsub_finite_not_nan (x y : spec_float) :
  x <> S754_nan -> SFfinite_pos y = true -> SFsub prec emax x y <> S754_nan.
Proof.
  destruct x as [s|s| |s m e], y as [s'|s'| |[] m' e']; simpl;
    try congruence; intros _ _; try discriminate.
  apply binary_normalize_not_nan.
Qed.

Lemma SFdiv_nonneg (x y : spec_float) :
  has_sign false x -> SFfinite_pos y = true ->
  has_sign false (SFdiv prec emax x y).
Proof.
  destruct x as [s|s| |s m e], y as [s'|s'| |[] m' e']; simpl;
    try tauto; try discriminate; intros -> _; try reflexivity.
  unfold SFdiv_core_binary.
  set (e'' := Z.min _ _).
  set (m'' := match (e - e' - e'') with
              | Z0 => _ | Zpos _ => _ | Zneg _ => _
              end).
  assert (0 <= m'') as Hm.
  { subst m''. destruct (e - e' - e''); try lia. apply Z.shiftl_nonneg. lia. }
  pose proof (Z.div_pos m'' (Zpos m') Hm ltac:(lia)) as Hq.
  unfold Z.div in Hq.
  destruct (Z.div_eucl m'' (Zpos m')) as [q r].
  apply binary_round_aux_sign. exact Hq.
Qed.

Lemma SFsqrt_nonneg (x : spec_float) :
  has_sign false x -> has_sign false (SFsqrt prec emax x).
Proof.
  destruct x as [s|s| |s m e]; simpl; try tauto; intros ->; try reflexivity.
  unfold SFsqrt_core_binary.
  set (m'' := match _ with Z0 => _ | Zpos _ => _ | Zneg _ => _ end).
  pose proof (Z.sqrtrem_spec m'') as Hs.
  assert (0 <= m'') as Hm.
  { subst m''. destruct (e - 2 * _); try lia. apply Z.shiftl_nonneg. lia. }
  specialize (Hs Hm).
  destruct (Z.sqrtrem m'') as [q r].
  apply binary_round_aux_sign. lia.
Qed.

End Rounding.

(** ** The rejection loop keeps [std::log] and [std::sqrt] in their domains *)

Lemma SFfinite_pos_sign (x : spec_float) :
  SFfinite_pos x = true -> has_sign false x.
Proof. destruct x as [s|s| |[] m e]; simpl; congruence. Qed.

Lemma SFfinite_pos_finite (x : spec_float) :
  SFfinite_pos x = true -> SFfinite x = true.
Proof. destruct x as [s|s| |[] m e]; simpl; congruence. Qed.

Lemma has_sign_not_nan (sx : bool) (x : spec_float) :
  has_sign sx x -> x <> S754_nan.
Proof. destruct x; simpl; congruence. Qed.

Lemma SFcompare_finite_pos_flip (m1 m2 : positive) (e1 e2 : Z) :
  SFcompare (S754_finite false m1 e1) (S754_finite false m2 e2) = Some Gt ->
  SFcompare (S754_finite false m2 e2) (S754_finite false m1 e1) = Some Lt.
Proof.
  simpl. rewrite (Z.compare_antisym e1 e2).
  destruct (e1 ?= e2); simpl; try congruence.
  pose proof (Pos.compare_cont_antisym m1 m2 Eq) as Ha. simpl in Ha.
  rewrite <- Ha.
  destruct (Pos.compare_cont Eq m1 m2); simpl; congruence.
Qed.

Lemma accepted_between_0_and_1 (one s : spec_float) :
  SFfinite_pos one = true -> has_sign false s ->
  SFleb one s = false -> SFeqb s SFzero = false ->
  SFfinite_pos s = true /\ SFltb SFzero s = true /\ SFltb s one = true.
Proof.
  intros Hone Hs Hge Hz.
  destruct one as [?|?| |[] m1 e1]; try discriminate.
  destruct s as [s|s| |s m e]; simpl in Hs; try tauto; subst;
    try discriminate.
  repeat split.
  unfold SFleb in Hge. unfold SFltb.
  rewrite SFcompare_finite_pos_flip; [reflexivity|].
  simpl in *. destruct (e1 ?= e); try congruence.
  destruct (Pos.compare_cont Eq m1 m); congruence.
Qed.

Lemma negative_sign (l : spec_float) :
  SFltb l SFzero = true -> has_sign true l.
Proof. destruct l as [[]|[]| |[] m e]; cbv; congruence. Qed.

Lemma nonneg_leb_zero (x : spec_float) :
  has_sign false x -> SFleb SFzero x = true.
Proof. destruct x as [s|s| |s m e]; cbv; try tauto; intros ->; reflexivity. Qed.

Section Domain.

Context {P : Platform}.

Hypothesis Hconst : constants_finite = true.

Lemma constants_finite_inv :
  SFfinite_pos (real_of_int 1) = true /\ SFfinite_pos (real_of_int 2) = true
  /\ SFfinite_pos RandNext2_den = true.
Proof.
  unfold constants_finite in Hconst.
  apply andb_true_iff in Hconst as [H12 H3].
  apply andb_true_iff in H12 as [H1 H2]. auto.
Qed.

Lemma real_of_int_nonneg (z : Z) : 0 <= z -> has_sign false (real_of_int z).
Proof. apply binary_normalize_nonneg. Qed.

Lemma RandNext2_nonneg (g : RandState) : has_sign false (fst (RandNext2 g)).
Proof.
  destruct constants_finite_inv as (_ & _ & Hden).
  unfold RandNext2. pose proof (rand_range g) as Hr.
  destruct (rand g) as [r g']. cbn [fst] in *.
  apply SFconvert_sign, SFdiv_nonneg; [|exact Hden].
  apply SFadd_nonneg.
  - apply SFconvert_sign, real_of_int_nonneg. lia.
  - reflexivity.
Qed.

(** [2.0f * u - 1.0f] is a number whenever [u] is a non-negative one. *)
Lemma centred_not_nan (u : real_t) :
  has_sign false u ->
  rsub (rmul (real_of_int 2) u) (real_of_int 1) <> S754_nan.
Proof.
  destruct constants_finite_inv as (H1 & H2 & _).
  intros Hu. apply SFsub_finite_not_nan; [|exact H1].
  apply (has_sign_not_nan (xorb false false)).
  apply SFmul_sign; auto using SFfinite_pos_sign, SFfinite_pos_finite.
Qed.

Lemma attempt_s_nonneg (g : RandState) :
  has_sign false (snd (fst (attempt g))).
Proof.
  unfold attempt.
  pose proof (RandNext2_nonneg g) as Hu.
  destruct (RandNext2 g) as [u g1].
  pose proof (RandNext2_nonneg g1) as Hv.
  destruct (RandNext2 g1) as [v g2]. cbn [fst snd] in *.
  apply SFadd_nonneg; apply SFmul_self_nonneg; apply centred_not_nan;
    assumption.
Qed.

Lemma SampleNormal2D_loop_accepts (fuel : nat) (g g' : RandState)
    (x y s : real_t) :
  SampleNormal2D_loop fuel g = Some (x, y, s, g') ->
  has_sign false s /\ rejected s = false.
Proof.
  revert g. induction fuel as [|fuel IH]; intros g; simpl; [discriminate|].
  pose proof (attempt_s_nonneg g) as Hs.
  destruct (attempt g) as [[[x0 y0] s0] g0]. cbn [fst snd] in Hs.
  destruct (rejected s0) eqn:Hrej.
  - apply IH.
  - intros [= <- <- <- <-]. auto.
Qed.

Lemma sqrt_arg_nonneg (s : real_t) :
  SFfinite_pos s = true -> SFltb (std_log s) SFzero = true ->
  has_sign false (sqrt_arg s).
Proof.
  destruct constants_finite_inv as (_ & H2 & _).
  intros Hs Hlog. unfold sqrt_arg.
  apply SFdiv_nonneg; [|exact Hs].
  change false with (xorb true true).
  destruct (real_of_int 2) as [?|?| |[] m e]; try discriminate.
  apply SFmul_sign; [reflexivity|apply negative_sign, Hlog|now left].
Qed.

Lemma accepted_in_domain (s : real_t) :
  has_sign false s -> rejected s = false ->
  SFltb SFzero s = true /\ SFltb s (real_of_int 1) = true
  /\ (SFltb (std_log s) SFzero = true ->
      SFleb SFzero (sqrt_arg s) = true /\ rsqrt (sqrt_arg s) <> S754_nan).
Proof.
  destruct constants_finite_inv as (H1 & _ & _).
  intros Hs Hrej. unfold rejected in Hrej.
  apply orb_false_iff in Hrej as [Hge Hz].
  destruct (accepted_between_0_and_1 _ _ H1 Hs Hge Hz) as (Hfin & H0 & Hlt).
  repeat split; trivial.
  - apply nonneg_leb_zero, sqrt_arg_nonneg; assumption.
  - apply (has_sign_not_nan false), SFsqrt_nonneg, sqrt_arg_nonneg; assumption.
Qed.

End Domain.

(** The three platforms have finite constants. *)
Example platforms_have_finite_constants :
  @constants_finite iso_c_float = true
  /\ @constants_finite glibc_lcg_float = true
  /\ @constants_finite glibc_lcg_double = true.
Proof. repeat split; vm_compute; reflexivity. Qed.

(** X14: whenever the rejection loop of [SampleNormal2D] exits, [s] is a
    number strictly between 0 and 1, whatever the draws were: [std::log]
    and the division by [s] get an operand inside their domain.  If
    moreover [std::log(s)] is negative, the operand
    [-2.0f * std::log(s) / s] of [std::sqrt] is a non-negative number and
    the square root is a number. *)
Theorem SampleNormal2D_loop_exit_in_domain {P : Platform} (fuel : nat)
    (g g' : RandState) (x y s : real_t) :
  constants_finite = true ->
  SampleNormal2D_loop fuel g = Some (x, y, s, g') ->
  SFltb SFzero s = true /\ SFltb s (real_of_int 1) = true
  /\ (SFltb (std_log s) SFzero = true ->
      SFleb SFzero (sqrt_arg s) = true /\ rsqrt (sqrt_arg s) <> S754_nan).
Proof.
  intros Hconst Hloop.
  destruct (SampleNormal2D_loop_accepts Hconst fuel g g' x y s Hloop)
    as [Hs Hrej].
  apply accepted_in_domain; assumption.
Qed.

Lemma SampleNormal2D_loop_exit_in_domain_witness :
  let s := S754_finite false 15395777 (-29) in
  SFltb SFzero s = true /\ SFltb s (@real_of_int iso_c_float 1) = true
  /\ SFleb SFzero (@sqrt_arg iso_c_float s) = true
  /\ @rsqrt iso_c_float (@sqrt_arg iso_c_float s) <> S754_nan.
Proof.
  intros s.
  destruct (@SampleNormal2D_loop_exit_in_domain iso_c_float 10%nat 42 3263785912
              (S754_finite false 11048624 (-26))
              (S754_finite false 10641088 (-28)) s
              ltac:(vm_compute; reflexivity) ltac:(vm_compute; reflexivity))
    as (H0 & H1 & Hlog).
  destruct (Hlog ltac:(vm_compute; reflexivity)) as [Harg Hsqrt].
  repeat split; assumption.
Defined.

(** ** The uniform source in floating point *)

(** With [float] as [real_t] and [RAND_MAX = 2147483647], the largest
    results of [rand()] convert to [2^31], which is also what
    [static_cast<real_t>(RAND_MAX) + 1.0f] rounds to: [RandNext] returns 1. *)
Example RandNext_reaches_one :
  @rand glibc_lcg_float 230538014 = (2147483647, 2147483647)
  /\ @real_of_int glibc_lcg_float 2147483647 = S754_finite false 8388608 8
  /\ @radd glibc_lcg_float (@real_of_int glibc_lcg_float 2147483647)
       (@real_of_int glibc_lcg_float 1) = S754_finite false 8388608 8
  /\ fst (@RandNext glibc_lcg_float 230538014) = @real_of_int glibc_lcg_float 1.
Proof. repeat split; vm_compute; reflexivity. Qed.

(** C3 at the failing input: [float] as [real_t], [RAND_MAX = 2147483647],
    an engine whose generator next returns [RAND_MAX] (seed 230538014 of
    the linear congruential generator), the default bounds [a = 0.0f] and
    [b = 1.0f] and a destination of one element at address 0.
    [SampleUniform] writes [1.0f], which is [b], not a value below [b]. *)
Theorem SampleUniform_writes_upper_bound :
  let P := glibc_lcg_float in
  let dst := {| dptr := 0; shape := {| shape_ := [1; 1]; stride_ := 1 |} |} in
  let a := real_of_int 0 in
  let b := real_of_int 1 in
  let w := snd (construct 230538014 1000 {| heap := ∅; rng := 0 |}) in
  heap (SampleUniform dst a b w) !! 0 = Some b
  /\ SFltb b b = false
  /\ SFltb (fst (RandNext (rng w))) (real_of_int 1) = false.
Proof. repeat split; vm_compute; reflexivity. Qed.

(** The upper bound is reached on the other platforms too, through the
    rounding of [r * (b - a) + a]: with [RAND_MAX = 32767] and [float], for
    [a = 2^24] and [b = 2^24 + 2]; with [double], for [a = 2^53] and
    [b = 2^53 + 2]. *)
Example upper_bound_reached_iso_c :
  let P := iso_c_float in
  let dst := {| dptr := 0; shape := {| shape_ := [1; 1]; stride_ := 1 |} |} in
  let a := real_of_int 16777216 in
  let b := real_of_int 16777218 in
  let w := snd (construct 42 1000 {| heap := ∅; rng := 0 |}) in
  SFltb a b = true
  /\ SFltb (fst (RandNext (rng w))) (real_of_int 1) = true
  /\ heap (SampleUniform dst a b w) !! 0 = Some b.
Proof. repeat split; vm_compute; reflexivity. Qed.

Example upper_bound_reached_double :
  let P := glibc_lcg_double in
  let dst := {| dptr := 0; shape := {| shape_ := [1; 1]; stride_ := 1 |} |} in
  let a := real_of_int 9007199254740992 in
  let b := real_of_int 9007199254740994 in
  let w := snd (construct 230538014 1000 {| heap := ∅; rng := 0 |}) in
  SFltb a b = true
  /\ SFltb (fst (RandNext (rng w))) (real_of_int 1) = true
  /\ heap (SampleUniform dst a b w) !! 0 = Some b.
Proof. repeat split; vm_compute; reflexivity. Qed.

(** ** [SampleNormal2D] against the Box-Muller sampler of the spec *)

Section BoxMullerRefinement.

Context {P : Platform}.

Lemma RandNext2_draw (g : RandState) :
  RandNext2 g = (open_unit_draw (fst (rand g)), snd (rand g)).
Proof. unfold RandNext2. destruct (rand g); reflexivity. Qed.

Lemma attempt_draws (g : RandState) :
  attempt g =
    let x := disk_coordinate (open_unit_draw (fst (rand g))) in
    let y := disk_coordinate (open_unit_draw (fst (rand (snd (rand g))))) in
    (x, y, squared_norm x y, snd (rand (snd (rand g)))).
Proof. unfold attempt. rewrite !RandNext2_draw. reflexivity. Qed.

Lemma SampleNormal2D_step (fuel : nat) (g : RandState) :
  SampleNormal2D (S fuel) g =
    let '(x, y, s, g') := attempt g in
    if rejected s then SampleNormal2D fuel g'
    else Some (rmul x (polar_factor s), rmul y (polar_factor s), g').
Proof.
  unfold SampleNormal2D. simpl.
  destruct (attempt g) as [[[x y] s] g'].
  destruct (rejected s); reflexivity.
Qed.

Lemma SampleNormal2D_sound (fuel : nat) (g : RandState)
    (res : real_t * real_t * RandState) :
  SampleNormal2D fuel g = Some res -> BoxMuller g res.
Proof.
  revert g. induction fuel as [|fuel IH]; intros g; [discriminate|].
  rewrite SampleNormal2D_step, attempt_draws. cbv beta iota zeta.
  match goal with
  | |- context [rejected ?s] => destruct (rejected s) eqn:Hrej
  end; unfold rejected in Hrej.
  - intros Hrec. apply orb_true_iff in Hrej.
    eapply BoxMuller_retry; eauto using surjective_pairing.
  - intros [= <-]. apply orb_false_iff in Hrej as [Hge Hz].
    eapply BoxMuller_accept; eauto using surjective_pairing.
Qed.

Lemma SampleNormal2D_complete (g : RandState)
    (res : real_t * real_t * RandState) :
  BoxMuller g res -> exists fuel, SampleNormal2D fuel g = Some res.
Proof.
  induction 1 as [g g1 g2 r1 r2 x y s t Hr1 Hr2 -> -> -> Hge Hz ->
                 |g g1 g2 r1 r2 x y s res Hr1 Hr2 -> -> -> Hrej _ [fuel IH]].
  - exists 1%nat. rewrite SampleNormal2D_step, attempt_draws.
    rewrite Hr1. cbn [fst snd]. rewrite Hr2. cbn [fst snd]. cbv beta iota zeta.
    unfold rejected. rewrite Hge, Hz. reflexivity.
  - exists (S fuel). rewrite SampleNormal2D_step, attempt_draws.
    rewrite Hr1. cbn [fst snd]. rewrite Hr2. cbn [fst snd]. cbv beta iota zeta.
    unfold rejected.
    replace (_ || _) with true by (symmetry; apply orb_true_iff; exact Hrej).
    exact IH.
Qed.

Lemma SampleNormal2D_fuel_mono (fuel fuel' : nat) (g : RandState)
    (res : real_t * real_t * RandState) :
  (fuel <= fuel')%nat ->
  SampleNormal2D fuel g = Some res -> SampleNormal2D fuel' g = Some res.
Proof.
  revert fuel' g. induction fuel as [|fuel IH]; intros fuel' g Hle;
    [discriminate|].
  destruct fuel' as [|fuel']; [lia|].
  rewrite !SampleNormal2D_step.
  destruct (attempt g) as [[[x y] s] g'].
  destruct (rejected s); [|trivial].
  apply IH. lia.
Qed.

End BoxMullerRefinement.

(** X15: [SampleNormal2D] follows the steps of the rejection Box-Muller
    sampler of the spec, each evaluated in floating point: the draws [u],
    [v] are [(rand()+1)/(RAND_MAX+2)] computed in [double] and converted
    to [real_t], [x = 2u-1], [y = 2v-1], [s = x^2+y^2], a retry while
    [s >= 1] or [s == 0], and the pair [(x t, y t)] with
    [t = sqrt(-2 ln(s)/s)] on acceptance: it returns a result, for some
    bound on the passes of its loop and for every larger one, exactly when
    these steps give that result. *)
Theorem SampleNormal2D_refines_BoxMuller {P : Platform} (g : RandState)
    (res : real_t * real_t * RandState) :
  (BoxMuller g res <-> exists fuel, SampleNormal2D fuel g = Some res)
  /\ (forall fuel fuel', (fuel <= fuel')%nat ->
        SampleNormal2D fuel g = Some res -> SampleNormal2D fuel' g = Some res).
Proof.
  split; [split|].
  - apply SampleNormal2D_complete.
  - intros [fuel H]. exact (SampleNormal2D_sound fuel g res H).
  - intros fuel fuel'. apply SampleNormal2D_fuel_mono.
Qed.

Lemma SampleNormal2D_refines_BoxMuller_witness :
  let P := iso_c_float in
  let res : real_t * real_t * RandState :=
    (S754_finite true 13408676 (-23), S754_finite true 15142455 (-24),
     2993822286) in
  BoxMuller (srand 2) res /\ SampleNormal2D 7 (srand 2) = Some res.
Proof.
  intros P res.
  destruct (SampleNormal2D_refines_BoxMuller (srand 2) res)
    as [[_ Hspec] Hmono].
  assert (SampleNormal2D 2 (srand 2) = Some res) as Hrun
    by (vm_compute; reflexivity).
  split.
  - apply Hspec. exists 2%nat. exact Hrun.
  - apply (Hmono 2%nat 7%nat); [lia|exact Hrun].
Defined.

(** C4 at the failing input: [float] as [real_t], [RAND_MAX = 2147483647]
    and a generator whose next result is [RAND_MAX] (the state 230538014
    of the linear congruential generator).  The draw of [RandNext2] is
    [(2^31 + 1) / (2^31 + 2)] in [double], which converts to [1.0f]: it is
    not inside the open interval (0,1) that the comment of [RandNext2]
    and the spec give. *)
Theorem RandNext2_reaches_one :
  let P := glibc_lcg_float in
  let u := fst (RandNext2 230538014) in
  fst (rand 230538014) = RAND_MAX
  /\ u = real_of_int 1
  /\ ~ (SFltb SFzero u = true /\ SFltb u (real_of_int 1) = true).
Proof.
  repeat split; try (vm_compute; reflexivity).
  intros [_ H]. vm_compute in H. discriminate.
Qed.


(** A run: from seed 2 the sampler accepts its second attempt. *)
Example SampleNormal2D_run :
  let P := iso_c_float in
  SampleNormal2D 1 (srand 2) = None
  /\ SampleNormal2D 2 (srand 2)
     = Some (S754_finite true 13408676 (-23), S754_finite true 15142455 (-24),
             2993822286).
Proof. vm_compute. split; reflexivity. Qed.

(** ** Loops *)

Section Loops.

Context {St St' : Type}.

Lemma for_from_inv (Inv : Z -> St -> Prop) (body : Z -> St -> St) (i : Z)
    (n : nat) (s : St) :
  Inv i s ->
  (forall k s, i <= k < i + Z.of_nat n -> Inv k s -> Inv (k + 1) (body k s)) ->
  Inv (i + Z.of_nat n) (for_from body i n s).
Proof.
  revert i s. induction n as [|n IH]; intros i s Hi Hstep.
  - replace (i + Z.of_nat 0) with i by lia. exact Hi.
  - replace (i + Z.of_nat (S n)) with ((i + 1) + Z.of_nat n) by lia. simpl.
    apply IH.
    + apply Hstep; [lia|exact Hi].
    + intros k s' Hk. apply Hstep. lia.
Qed.

Lemma for_from_rel (R : Z -> St -> St' -> Prop) (body : Z -> St -> St)
    (body' : Z -> St' -> St') (i : Z) (n : nat) (s : St) (s' : St') :
  R i s s' ->
  (forall k s s', i <= k < i + Z.of_nat n -> R k s s' ->
                  R (k + 1) (body k s) (body' k s')) ->
  R (i + Z.of_nat n) (for_from body i n s) (for_from body' i n s').
Proof.
  revert i s s'. induction n as [|n IH]; intros i s s' Hi Hstep.
  - replace (i + Z.of_nat 0) with i by lia. exact Hi.
  - replace (i + Z.of_nat (S n)) with ((i + 1) + Z.of_nat n) by lia. simpl.
    apply IH.
    + apply Hstep; [lia|exact Hi].
    + intros k t t' Hk. apply Hstep. lia.
Qed.

Lemma for_from_opt_rel (R : Z -> St -> St' -> Prop)
    (body : Z -> St -> option St) (body' : Z -> St' -> option St') (i : Z)
    (n : nat) (s : St) (s' : St') :
  R i s s' ->
  (forall k s s', i <= k < i + Z.of_nat n -> R k s s' ->
                  option_Forall2 (R (k + 1)) (body k s) (body' k s')) ->
  option_Forall2 (R (i + Z.of_nat n))
    (for_from_opt body i n s) (for_from_opt body' i n s').
Proof.
  revert i s s'. induction n as [|n IH]; intros i s s' Hi Hstep.
  - replace (i + Z.of_nat 0) with i by lia. constructor. exact Hi.
  - replace (i + Z.of_nat (S n)) with ((i + 1) + Z.of_nat n) by lia. simpl.
    destruct (Hstep i s s' ltac:(lia) Hi) as [t t' Ht|]; [|constructor].
    apply IH; [exact Ht|].
    intros k u u' Hk. apply Hstep. lia.
Qed.

Lemma for_from_id (body : Z -> St -> St) (i : Z) (n : nat) (s : St) :
  (forall k s, body k s = s) -> for_from body i n s = s.
Proof.
  intros Hid. revert i. induction n as [|n IH]; intros i; simpl; trivial.
  rewrite Hid. apply IH.
Qed.

Lemma for_from_opt_id (body : Z -> St -> option St) (i : Z) (n : nat) (s : St) :
  (forall k s, body k s = Some s) -> for_from_opt body i n s = Some s.
Proof.
  intros Hid. revert i. induction n as [|n IH]; intros i; simpl; trivial.
  rewrite Hid. apply IH.
Qed.

End Loops.

(** ** Nothing to fill *)

Section ZeroExtent.

Context {P : Platform}.

Lemma SampleUniform_row_empty (mat : Tensor) (a b : real_t) (i : Z)
    (w : World) :
  extent (shape mat) 0 = 0 -> SampleUniform_row mat a b i w = w.
Proof. unfold SampleUniform_row. intros ->. reflexivity. Qed.

Lemma SampleGaussian_row_empty (fuel : nat) (mat : Tensor) (mu sigma : real_t)
    (i : Z) (w : World) :
  extent (shape mat) 0 = 0 -> SampleGaussian_row fuel mat mu sigma i w = Some w.
Proof. unfold SampleGaussian_row. intros ->. reflexivity. Qed.

End ZeroExtent.

(** C10: when the flattened destination has a zero outer extent or a zero
    inner extent, [SampleUniform] and [SampleGaussian] return with the
    memory and the generator state as they found them: nothing is written
    and no draw is consumed. *)
Theorem zero_extent_no_effect {P : Platform} (fuel : nat) (dst : Tensor)
    (a b mu sigma : real_t) (w : World) :
  extent (shape (FlatTo2D dst)) 1 = 0 \/ extent (shape (FlatTo2D dst)) 0 = 0 ->
  SampleUniform dst a b w = w
  /\ SampleGaussian fuel dst mu sigma w = Some w.
Proof.
  unfold SampleUniform, SampleGaussian, for_loop, for_loop_opt.
  intros [Houter|Hinner].
  - rewrite Houter. split; reflexivity.
  - split.
    + apply for_from_id. intros i w'. apply SampleUniform_row_empty, Hinner.
    + apply for_from_opt_id. intros i w'.
      apply SampleGaussian_row_empty, Hinner.
Qed.

Lemma zero_extent_no_effect_witness :
  let P := iso_c_float in
  let dst :=
    {| dptr := 0; shape := {| shape_ := [0; 3; 2]; stride_ := 0 |} |} in
  let w := {| heap := {[ 0 := real_of_int 7 ]}; rng := srand 42 |} in
  SampleUniform dst (real_of_int 0) (real_of_int 1) w = w
  /\ SampleGaussian 0 dst (real_of_int 0) (real_of_int 1) w = Some w.
Proof.
  intros P dst w.
  apply (zero_extent_no_effect 0 dst). right. reflexivity.
Defined.

(** ** What [SampleUniform] leaves alone *)

Section Frame.

Context {P : Platform}.

Lemma SampleUniform_row_frame (mat : Tensor) (a b : real_t) (i : Z) (w : World)
    (p : Z) :
  0 <= i < extent (shape mat) 1 -> ~ in_footprint mat p ->
  heap (SampleUniform_row mat a b i w) !! p = heap w !! p.
Proof.
  intros Hi Hp. unfold SampleUniform_row, for_loop.
  apply (for_from_inv (fun _ w' => heap w' !! p = heap w !! p)); [reflexivity|].
  intros j w' Hj IH.
  destruct (RandNext (rng w')) as [r g']. cbn.
  rewrite lookup_insert_ne; [exact IH|].
  intros Heq. apply Hp. exists i, j. split; [exact Hi|]. split; [lia|].
  symmetry. exact Heq.
Qed.

Lemma SampleUniform_outside_footprint (dst : Tensor) (a b : real_t) (w : World)
    (p : Z) :
  ~ in_footprint (FlatTo2D dst) p ->
  heap (SampleUniform dst a b w) !! p = heap w !! p.
Proof.
  intros Hp. unfold SampleUniform, for_loop.
  apply (for_from_inv (fun _ w' => heap w' !! p = heap w !! p)); [reflexivity|].
  intros i w' Hi IH.
  rewrite SampleUniform_row_frame; [exact IH|lia|exact Hp].
Qed.

End Frame.

(** C7, as amended: [SampleUniform(dst, a, b)] changes memory only at the
    elements of [dst]; for a destination that shares no element with the
    scratch buffer of the engine, every element of the buffer holds after
    the call what it held before. *)
Theorem SampleUniform_frame {P : Platform} (e : Random) (dst : Tensor)
    (a b : real_t) (w : World) :
  buffer_disjoint e dst ->
  (forall p, ~ in_footprint (FlatTo2D dst) p ->
             heap (SampleUniform dst a b w) !! p = heap w !! p)
  /\ (forall k, 0 <= k < capacity e ->
                heap (SampleUniform dst a b w) !! (dptr (buffer_ e) + k)
                = heap w !! (dptr (buffer_ e) + k)).
Proof.
  intros Hdisj. split.
  - intros p. apply SampleUniform_outside_footprint.
  - intros k Hk. apply SampleUniform_outside_footprint, Hdisj, Hk.
Qed.

Lemma SampleUniform_frame_witness :
  let P := iso_c_float in
  let e := {| buffer_ := new_buffer 4 100 |} in
  let dst := {| dptr := 0; shape := {| shape_ := [3; 2]; stride_ := 4 |} |} in
  let w := {| heap := {[ 101 := real_of_int 7 ]}; rng := srand 42 |} in
  let w' := SampleUniform dst (real_of_int 0) (real_of_int 1) w in
  (forall p, ~ in_footprint (FlatTo2D dst) p -> heap w' !! p = heap w !! p)
  /\ (forall k, 0 <= k < 4 -> heap w' !! (100 + k) = heap w !! (100 + k)).
Proof.
  intros P e dst w w'.
  apply (SampleUniform_frame e dst).
  intros k Hk (i & j & Hi & Hj & Hp).
  cbn in Hk, Hi, Hj, Hp. unfold cell in Hp. cbn in Hp.
  change (IndexT.mul 32 1 2) with 2 in Hi. lia.
Defined.

(** The call does write its destination: the six elements of a 3 x 2
    destination of stride 4, and nothing between the rows. *)
Example SampleUniform_fills :
  let P := iso_c_float in
  let dst := {| dptr := 0; shape := {| shape_ := [3; 2]; stride_ := 4 |} |} in
  let w := {| heap := ∅; rng := srand 42 |} in
  let w' := SampleUniform dst (real_of_int 0) (real_of_int 1) w in
  map (fun p => bool_decide (is_Some (heap w' !! p))) [0; 1; 2; 3; 4; 5; 6; 7]
  = [true; true; true; false; true; true; true; false].
Proof. vm_compute. reflexivity. Qed.

(** C7, as stated, fails for a destination inside the scratch buffer, which
    is what [uniform(shape)] passes: [SampleUniform] on the view that
    [GetTemp] returns changes the first element of the buffer. *)
Lemma SampleUniform_on_temporary_writes_buffer :
  let P := iso_c_float in
  let '(e, w) :=
    construct 42 1000 {| heap := {[ 1000 := real_of_int 7 ]}; rng := 0 |} in
  match Cpu.GetTemp e {| shape_ := [2]; stride_ := 2 |} with
  | Ok temp =>
      let w' := SampleUniform temp (real_of_int 0) (real_of_int 1) w in
      heap w !! (dptr (buffer_ e) + 0) = Some (real_of_int 7)
      /\ heap w' !! (dptr (buffer_ e) + 0)
         = Some (S754_finite false 9769472 (-24))
      /\ heap w' !! (dptr (buffer_ e) + 0) <> heap w !! (dptr (buffer_ e) + 0)
  | Fatal _ => False
  end.
Proof. vm_compute. repeat split. discriminate. Qed.

(** ** The rows of [SampleGaussian] *)

Lemma nat_ind2 (Q : nat -> Prop) :
  Q 0%nat -> Q 1%nat -> (forall n, Q n -> Q (S (S n))) -> forall n, Q n.
Proof.
  intros H0 H1 Hstep n.
  assert (Q n /\ Q (S n)) as [Hn _]; [|exact Hn].
  induction n as [|n [IHn IHSn]]; auto.
Qed.

Lemma land_1_even (q : Z) : Z.land (2 * q) 1 = 0.
Proof.
  change 1 with (Z.ones 1). rewrite Z.land_ones by lia.
  change (2 ^ 1) with 2. rewrite Z.mul_comm. apply Z.mod_mul. lia.
Qed.

Lemma land_1_odd (q : Z) : Z.land (2 * q + 1) 1 = 1.
Proof.
  change 1 with (Z.ones 1) at 2. rewrite Z.land_ones by lia.
  change (2 ^ 1) with 2. rewrite Z.add_comm, (Z.mul_comm 2 q), Z_mod_plus_full.
  reflexivity.
Qed.

Section GaussianRows.

Context {P : Platform}.

Variables (fuel : nat) (mat : Tensor) (mu sigma : real_t) (i : Z).

Lemma draw_pairs_length (k : nat) (g g' : RandState)
    (ps : list (real_t * real_t)) :
  draw_pairs fuel k g = Some (ps, g') -> length ps = k.
Proof.
  revert g g' ps. induction k as [|k IH]; intros g g' ps; simpl.
  - intros [= <- _]. reflexivity.
  - destruct (SampleNormal2D fuel g) as [[[g1 g2] g1']|]; [|discriminate].
    destruct (draw_pairs fuel k g1') as [[ps' g'']|] eqn:Hd; [|discriminate].
    intros [= <- _]. simpl. f_equal. eapply IH, Hd.
Qed.

Lemma gaussian_scalars_lookup (ps : list (real_t * real_t)) (j : nat)
    (p : real_t * real_t) :
  ps !! j = Some p ->
  gaussian_scalars mu sigma ps !! (2 * j)%nat
    = Some (radd mu (rmul (fst p) sigma))
  /\ gaussian_scalars mu sigma ps !! (2 * j + 1)%nat
     = Some (radd mu (rmul (snd p) sigma)).
Proof.
  revert j. induction ps as [|p0 ps IH]; intros j; [discriminate|].
  destruct j as [|j]; simpl.
  - intros [= ->]. split; reflexivity.
  - intros Hj. replace (j + S (j + 0))%nat with (S (2 * j)) by lia.
    simpl. replace (j + (j + 0))%nat with (2 * j)%nat by lia.
    apply IH, Hj.
Qed.

Lemma write_row_frame (vs : list real_t) (j : Z) (h : gmap Z real_t) (p : Z) :
  (forall k, j <= k -> p <> cell mat i k) ->
  write_row mat i j vs h !! p = h !! p.
Proof.
  revert j h. induction vs as [|v vs IH]; intros j h Hp; simpl; trivial.
  rewrite IH by (intros k Hk; apply Hp; lia).
  apply lookup_insert_ne. intros Heq. apply (Hp j); [lia|]. symmetry. exact Heq.
Qed.

Lemma write_row_lookup (vs : list real_t) (j : Z) (h : gmap Z real_t) (k : nat)
    (v : real_t) :
  vs !! k = Some v ->
  write_row mat i j vs h !! cell mat i (j + Z.of_nat k) = Some v.
Proof.
  revert j h k v. induction vs as [|v0 vs IH]; intros j h k v; [discriminate|].
  destruct k as [|k].
  - replace (j + Z.of_nat 0) with j by lia. simpl. intros [= ->].
    rewrite write_row_frame by (intros k Hk; unfold cell; lia).
    apply lookup_insert_eq.
  - replace (j + Z.of_nat (S k)) with (j + 1 + Z.of_nat k) by lia. simpl.
    apply IH.
Qed.

Lemma SampleGaussian_loop_pairs (n : nat) :
  forall (q : Z) (g1 g2 : real_t) (w : World),
    match for_from_opt (SampleGaussian_body fuel mat mu sigma i) (2 * q) n
            (g1, g2, w) with
    | Some (_, _, w') => Some w'
    | None => None
    end
    = match draw_pairs fuel (Nat.div2 (S n)) (rng w) with
      | Some (ps, g') =>
          Some {| heap := write_row mat i (2 * q)
                            (take n (gaussian_scalars mu sigma ps)) (heap w);
                  rng := g' |}
      | None => None
      end.
Proof.
  induction n as [| |n IH] using nat_ind2; intros q g1 g2 w.
  - destruct w; reflexivity.
  - change (Nat.div2 2) with 1%nat.
    cbn [for_from_opt SampleGaussian_body draw_pairs].
    rewrite land_1_even. cbn [Z.eqb].
    destruct (SampleNormal2D fuel (rng w)) as [[[p1 p2] g']|]; reflexivity.
  - change (Nat.div2 (S (S (S n)))) with (S (Nat.div2 (S n))).
    cbn [for_from_opt SampleGaussian_body draw_pairs].
    rewrite land_1_even. cbn [Z.eqb].
    destruct (SampleNormal2D fuel (rng w)) as [[[p1 p2] g']|]; [|reflexivity].
    cbn [for_from_opt SampleGaussian_body].
    rewrite land_1_odd. cbn [Z.eqb].
    replace (2 * q + 1 + 1) with (2 * (q + 1)) by lia.
    rewrite IH. cbn [store rng heap].
    destruct (draw_pairs fuel (Nat.div2 (S n)) g') as [[ps g'']|];
      [|reflexivity].
    cbn [gaussian_scalars flat_map app take write_row fst snd].
    replace (2 * q + 1 + 1) with (2 * (q + 1)) by lia.
    reflexivity.
Qed.

End GaussianRows.

Lemma le_twice_div2_succ (n : nat) : (n <= 2 * Nat.div2 (S n))%nat.
Proof.
  pose proof (Nat.div2_odd (S n)) as H. revert H.
  generalize (Nat.div2 (S n)). intros q.
  destruct (Nat.odd (S n)); cbn [Nat.b2n]; lia.
Qed.

Section GaussianPairs.

Context {P : Platform}.

Variables (fuel : nat) (mat : Tensor) (mu sigma : real_t).

Lemma SampleGaussian_row_eq (i : Z) (w : World) :
  SampleGaussian_row fuel mat mu sigma i w
  = match draw_pairs fuel (pairs_per_row (extent (shape mat) 0)) (rng w) with
    | Some (ps, g') =>
        Some {| heap := write_row mat i 0
                          (take (Z.to_nat (extent (shape mat) 0))
                             (gaussian_scalars mu sigma ps)) (heap w);
                rng := g' |}
    | None => None
    end.
Proof.
  exact (SampleGaussian_loop_pairs fuel mat mu sigma i
           (Z.to_nat (extent (shape mat) 0)) 0 SFzero SFzero w).
Qed.

Lemma draw_pairs_app (k m : nat) (g : RandState) :
  draw_pairs fuel (k + m) g
  = match draw_pairs fuel k g with
    | Some (ps, g') =>
        match draw_pairs fuel m g' with
        | Some (ps', g'') => Some (ps ++ ps', g'')
        | None => None
        end
    | None => None
    end.
Proof.
  revert g. induction k as [|k IH]; intros g.
  - cbn. destruct (draw_pairs fuel m g) as [[ps g']|]; reflexivity.
  - cbn [Nat.add draw_pairs].
    destruct (SampleNormal2D fuel g) as [[[p1 p2] g1]|]; [|reflexivity].
    rewrite IH.
    destruct (draw_pairs fuel k g1) as [[ps g2]|]; [|reflexivity].
    destruct (draw_pairs fuel m g2) as [[ps' g3]|]; reflexivity.
Qed.

Lemma gaussian_scalars_length (ps : list (real_t * real_t)) :
  length (gaussian_scalars mu sigma ps) = (2 * length ps)%nat.
Proof.
  unfold gaussian_scalars.
  rewrite (flat_map_constant_length (c := 2%nat)) by reflexivity. lia.
Qed.

Lemma gaussian_scalars_app (ps ps' : list (real_t * real_t)) :
  gaussian_scalars mu sigma (ps ++ ps')
  = gaussian_scalars mu sigma ps ++ gaussian_scalars mu sigma ps'.
Proof. apply flat_map_app. Qed.

(** The loop over the rows, started at row [a]: every row takes the next
    [k] pairs. *)
Lemma SampleGaussian_rows_eq (n : nat) :
  forall (a : Z) (w : World),
    for_from_opt (fun i w => SampleGaussian_row fuel mat mu sigma i w) a n w
    = match draw_pairs fuel (n * pairs_per_row (extent (shape mat) 0))
              (rng w) with
      | Some (ps, g') =>
          Some {| heap := write_rows mat a
                            (gaussian_rows mu sigma
                               (Z.to_nat (extent (shape mat) 0))
                               (pairs_per_row (extent (shape mat) 0)) n ps)
                            (heap w);
                  rng := g' |}
      | None => None
      end.
Proof.
  set (n0 := Z.to_nat (extent (shape mat) 0)).
  set (k := pairs_per_row (extent (shape mat) 0)).
  assert (n0 <= 2 * k)%nat as Hk by apply le_twice_div2_succ.
  induction n as [|n IH]; intros a w.
  - destruct w; reflexivity.
  - cbn [for_from_opt]. rewrite SampleGaussian_row_eq. fold n0 k.
    replace (S n * k)%nat with (k + n * k)%nat by lia.
    rewrite draw_pairs_app.
    destruct (draw_pairs fuel k (rng w)) as [[psr g1]|] eqn:Hpsr;
      [|reflexivity].
    rewrite IH. cbn [rng heap].
    destruct (draw_pairs fuel (n * k) g1) as [[ps g2]|]; [|reflexivity].
    pose proof (draw_pairs_length fuel _ _ _ _ Hpsr) as Hlen.
    assert (gaussian_rows mu sigma n0 k (S n) (psr ++ ps)
            = gaussian_row mu sigma n0 psr :: gaussian_rows mu sigma n0 k n ps)
      as ->; [|reflexivity].
    unfold gaussian_rows. cbn [seq map]. f_equal.
    + unfold row_pairs. change (0 * k)%nat with 0%nat. rewrite drop_0.
      rewrite take_app_length' by (symmetry; exact Hlen). reflexivity.
    + rewrite <- seq_shift, map_map. apply map_ext. intros i.
      unfold row_pairs.
      replace (S i * k)%nat with (length psr + i * k)%nat by lia.
      rewrite drop_app_add. reflexivity.
Qed.

(** How the rows read in the pairs. *)
Lemma gaussian_rows_lookup (n k rows : nat) (ps : list (real_t * real_t))
    (i : nat) :
  (n <= 2 * k)%nat -> (i < rows)%nat -> length ps = (rows * k)%nat ->
  exists row,
    gaussian_rows mu sigma n k rows ps !! i = Some row
    /\ length row = n
    /\ length (row_pairs k ps i) = k
    /\ forall (j : nat) (p : real_t * real_t),
         (j < k)%nat -> ps !! (i * k + j)%nat = Some p ->
         ((2 * j < n)%nat ->
          row !! (2 * j)%nat = Some (radd mu (rmul (fst p) sigma)))
         /\ ((2 * j + 1 < n)%nat ->
             row !! (2 * j + 1)%nat = Some (radd mu (rmul (snd p) sigma))).
Proof.
  intros Hn Hi Hlen.
  assert (length (row_pairs k ps i) = k) as Hrp.
  { unfold row_pairs. rewrite length_take, length_drop.
    assert (i * k + k <= rows * k)%nat by nia. lia. }
  exists (gaussian_row mu sigma n (row_pairs k ps i)).
  split; [|split; [|split; [exact Hrp|]]].
  - unfold gaussian_rows. rewrite list_lookup_fmap, lookup_seq_lt by exact Hi.
    reflexivity.
  - unfold gaussian_row. rewrite length_take, gaussian_scalars_length, Hrp.
    lia.
  - intros j p Hj Hp.
    assert (row_pairs k ps i !! j = Some p) as Hrow.
    { unfold row_pairs. rewrite lookup_take_lt by exact Hj.
      rewrite lookup_drop. exact Hp. }
    destruct (gaussian_scalars_lookup mu sigma _ j p Hrow) as [H1 H2].
    unfold gaussian_row.
    split; intros Hlt; rewrite lookup_take_lt by exact Hlt; assumption.
Qed.

End GaussianPairs.

(** C5: [SampleGaussian(dst, mu, sigma)] makes
    [shape[1] * ceil(shape[0]/2)] successive calls of [SampleNormal2D] on
    the flattened destination and, when they all return, has written its
    rows one after the other, row [i] from the pairs number
    [i * ceil(shape[0]/2)] onwards: the row is the first [shape[0]] of the
    scalars [mu + g*sigma] of its pairs, so that the element at an even
    index [2j] comes from the first element of pair [j] of the row and the
    element at [2j+1] from the second element of the same pair; a row of
    odd length has one scalar more than elements, the second of its last
    pair, and that one is not written. *)
Theorem SampleGaussian_rows_of_pairs {P : Platform} (fuel : nat)
    (dst : Tensor) (mu sigma : real_t) (w : World) :
  let mat := FlatTo2D dst in
  let n := Z.to_nat (extent (shape mat) 0) in
  let rows := Z.to_nat (extent (shape mat) 1) in
  let k := pairs_per_row (extent (shape mat) 0) in
  SampleGaussian fuel dst mu sigma w
  = match draw_pairs fuel (rows * k) (rng w) with
    | Some (ps, g') =>
        Some {| heap := write_rows mat 0 (gaussian_rows mu sigma n k rows ps)
                          (heap w);
                rng := g' |}
    | None => None
    end
  /\ forall (ps : list (real_t * real_t)) (i : nat),
       (i < rows)%nat -> length ps = (rows * k)%nat ->
       exists row,
         gaussian_rows mu sigma n k rows ps !! i = Some row
         /\ length row = n
         /\ length (gaussian_scalars mu sigma (row_pairs k ps i))
            = (n + Nat.b2n (Nat.odd n))%nat
         /\ forall (j : nat) (p : real_t * real_t),
              (j < k)%nat -> ps !! (i * k + j)%nat = Some p ->
              ((2 * j < n)%nat ->
               row !! (2 * j)%nat = Some (radd mu (rmul (fst p) sigma)))
              /\ ((2 * j + 1 < n)%nat ->
                  row !! (2 * j + 1)%nat
                  = Some (radd mu (rmul (snd p) sigma))).
Proof.
  intros mat n rows k. split.
  - exact (SampleGaussian_rows_eq fuel mat mu sigma rows 0 w).
  - intros ps i Hi Hlen.
    destruct (gaussian_rows_lookup mu sigma n k rows ps i
                (le_twice_div2_succ n) Hi Hlen)
      as (row & Hrow & Hlrow & Hrp & Hcells).
    exists row. repeat split; try assumption.
    + rewrite gaussian_scalars_length, Hrp.
      unfold k, pairs_per_row. fold n.
      pose proof (Nat.div2_odd (S n)) as Hdiv.
      rewrite Nat.odd_succ, <- Nat.negb_odd in Hdiv.
      destruct (Nat.odd n); cbn [negb Nat.b2n] in *; lia.
    + apply (Hcells j p); assumption.
    + apply (Hcells j p); assumption.
Qed.

Lemma SampleGaussian_rows_of_pairs_witness :
  let P := iso_c_float in
  let dst := {| dptr := 0; shape := {| shape_ := [3; 2]; stride_ := 4 |} |} in
  let mu := real_of_int 5 in
  let sigma := real_of_int 2 in
  let w := {| heap := ∅; rng := srand 2 |} in
  let drawn := default ([], rng w) (draw_pairs 5 4 (rng w)) in
  SampleGaussian 5 dst mu sigma w
  = Some {| heap := write_rows (FlatTo2D dst) 0
                      (gaussian_rows mu sigma 3 2 2 (fst drawn)) (heap w);
            rng := snd drawn |}
  /\ exists row,
       gaussian_rows mu sigma 3 2 2 (fst drawn) !! 1%nat = Some row
       /\ length row = 3%nat
       /\ length (gaussian_scalars mu sigma (row_pairs 2 (fst drawn) 1))
          = 4%nat
       /\ forall (j : nat) (p : real_t * real_t),
            (j < 2)%nat -> fst drawn !! (1 * 2 + j)%nat = Some p ->
            ((2 * j < 3)%nat ->
             row !! (2 * j)%nat = Some (radd mu (rmul (fst p) sigma)))
            /\ ((2 * j + 1 < 3)%nat ->
                row !! (2 * j + 1)%nat
                = Some (radd mu (rmul (snd p) sigma))).
Proof.
  intros P dst mu sigma w drawn.
  destruct (SampleGaussian_rows_of_pairs 5 dst mu sigma w) as [Hrun Hrows].
  assert (draw_pairs 5 4 (rng w) = Some (fst drawn, snd drawn)) as Hdrawn
    by (vm_compute; reflexivity).
  split.
  - rewrite Hrun.
    change (Z.to_nat (extent (shape (FlatTo2D dst)) 1)
            * pairs_per_row (extent (shape (FlatTo2D dst)) 0))%nat
      with 4%nat.
    rewrite Hdrawn. reflexivity.
  - apply (Hrows (fst drawn) 1%nat); [vm_compute; lia|].
    vm_compute. reflexivity.
Defined.

(** A run on a destination of two rows of three elements: each row draws
    two pairs, so the generator is left where four calls of
    [SampleNormal2D] leave it, and the element after the third of a row is
    not written. *)
Example SampleGaussian_odd_rows :
  let P := iso_c_float in
  let dst := {| dptr := 0; shape := {| shape_ := [3; 2]; stride_ := 4 |} |} in
  let w := {| heap := ∅; rng := srand 2 |} in
  match SampleGaussian 5 dst (real_of_int 5) (real_of_int 2) w,
        draw_pairs 5 4 (rng w) with
  | Some w', Some (ps, g') =>
      rng w' = g'
      /\ map (fun p => bool_decide (is_Some (heap w' !! p)))
           [0; 1; 2; 3; 4; 5; 6; 7]
         = [true; true; true; false; true; true; true; false]
      /\ heap w' !! 4
         = (fun p => radd (real_of_int 5) (rmul (fst p) (real_of_int 2)))
             <$> ps !! 2%nat
  | _, _ => False
  end.
Proof. vm_compute. repeat split. Qed.

(** ** Two runs of a filler *)

Lemma flat_map_ext_in {A B : Type} (f g : A -> list B) (l : list A) :
  (forall x, In x l -> f x = g x) -> flat_map f l = flat_map g l.
Proof.
  induction l as [|x l IH]; intros Hfg; simpl; trivial.
  rewrite Hfg by (left; reflexivity).
  rewrite IH; [reflexivity|]. intros y Hy. apply Hfg. right. exact Hy.
Qed.

Lemma In_seqZ (x n : Z) : In x (seqZ 0 n) -> 0 <= x < n.
Proof. rewrite <- list_elem_of_In, elem_of_seqZ. lia. Qed.

Section TwoRuns.

Context {P : Platform}.

Lemma cell_offset (mat : Tensor) (i j : Z) :
  cell mat i j = dptr mat + (i * stride_ (shape mat) + j).
Proof. unfold cell. lia. Qed.

Lemma agree_weaken (d1 d2 : Z) (h1 h2 : gmap Z real_t) (A B : Z -> Prop) :
  (forall off, B off -> A off) -> agree d1 d2 h1 h2 A -> agree d1 d2 h1 h2 B.
Proof. intros HBA HA off HB. apply HA, HBA, HB. Qed.

Lemma agree_insert (d1 d2 : Z) (h1 h2 : gmap Z real_t) (A : Z -> Prop) (c : Z)
    (v : real_t) :
  agree d1 d2 h1 h2 A ->
  agree d1 d2 (<[d1 + c := v]> h1) (<[d2 + c := v]> h2)
    (fun off => A off \/ off = c).
Proof.
  intros HA off Hoff.
  destruct (decide (off = c)) as [->|Hne].
  - rewrite !lookup_insert_eq. reflexivity.
  - rewrite !lookup_insert_ne by lia.
    destruct Hoff as [Hoff|Hoff]; [apply HA, Hoff|contradiction].
Qed.

Variables (mat1 mat2 : Tensor).
Hypothesis Hshape : shape mat1 = shape mat2.

Lemma related_weaken (A B : Z -> Prop) (w1 w2 : World) :
  (forall off, B off -> A off) ->
  related mat1 mat2 A w1 w2 -> related mat1 mat2 B w1 w2.
Proof.
  intros HBA [Hrng HA]. split; [exact Hrng|].
  exact (agree_weaken _ _ _ _ _ _ HBA HA).
Qed.

Lemma related_store (A : Z -> Prop) (i j : Z) (v : real_t) (g : RandState)
    (w1 w2 : World) :
  agree (dptr mat1) (dptr mat2) (heap w1) (heap w2)
    (fun off => A off \/ row_before mat1 i j off) ->
  related mat1 mat2 (fun off => A off \/ row_before mat1 i (j + 1) off)
    (store (cell mat1 i j) v g w1) (store (cell mat2 i j) v g w2).
Proof.
  intros HA. split; [reflexivity|]. cbn [store heap].
  rewrite !cell_offset, <- Hshape.
  eapply agree_weaken; [|apply agree_insert, HA].
  intros off [Hoff|(j' & Hj' & ->)]; [left; left; exact Hoff|].
  destruct (decide (j' = j)) as [->|Hne]; [right; reflexivity|].
  left. right. exists j'. split; [lia|reflexivity].
Qed.

Lemma row_before_0 (A : Z -> Prop) (i : Z) (w1 w2 : World) :
  related mat1 mat2 A w1 w2 ->
  related mat1 mat2 (fun off => A off \/ row_before mat1 i 0 off) w1 w2.
Proof.
  apply related_weaken.
  intros off [Hoff|(j' & Hj' & _)]; [exact Hoff|lia].
Qed.

Lemma row_before_end (A : Z -> Prop) (i : Z) (w1 w2 : World) :
  related mat1 mat2
    (fun off => A off
                \/ row_before mat1 i
                     (0 + Z.of_nat (Z.to_nat (extent (shape mat1) 0))) off)
    w1 w2 ->
  related mat1 mat2 (fun off => A off \/ row_offsets mat1 i off) w1 w2.
Proof.
  apply related_weaken.
  intros off [Hoff|(j & Hj & ->)]; [left; exact Hoff|].
  right. exists j. split; [lia|reflexivity].
Qed.

Lemma rows_before_0 (A : Z -> Prop) (w1 w2 : World) :
  related mat1 mat2 A w1 w2 ->
  related mat1 mat2 (fun off => A off \/ rows_before mat1 0 off) w1 w2.
Proof.
  apply related_weaken.
  intros off [Hoff|(i' & j & Hi' & _)]; [exact Hoff|lia].
Qed.

Lemma rows_before_succ (A : Z -> Prop) (i : Z) (w1 w2 : World) :
  0 <= i ->
  related mat1 mat2
    (fun off => (A off \/ rows_before mat1 i off) \/ row_offsets mat1 i off)
    w1 w2 ->
  related mat1 mat2 (fun off => A off \/ rows_before mat1 (i + 1) off) w1 w2.
Proof.
  intros Hi. apply related_weaken.
  intros off [Hoff|(i' & j & Hi' & Hj & ->)]; [left; left; exact Hoff|].
  destruct (decide (i' = i)) as [->|Hne].
  - right. exists j. split; [lia|reflexivity].
  - left. right. exists i', j. split; [lia|]. split; [lia|reflexivity].
Qed.

Lemma rows_before_end (A : Z -> Prop) (w1 w2 : World) :
  related mat1 mat2
    (fun off => A off
                \/ rows_before mat1
                     (0 + Z.of_nat (Z.to_nat (extent (shape mat1) 1))) off)
    w1 w2 ->
  related mat1 mat2 (fun off => A off \/ offsets mat1 off) w1 w2.
Proof.
  apply related_weaken.
  intros off [Hoff|(i & j & Hi & Hj & ->)]; [left; exact Hoff|].
  right. exists i, j. split; [lia|]. split; [lia|reflexivity].
Qed.

Lemma SampleUniform_row_rel (A : Z -> Prop) (a b : real_t) (i : Z)
    (w1 w2 : World) :
  related mat1 mat2 A w1 w2 ->
  related mat1 mat2 (fun off => A off \/ row_offsets mat1 i off)
    (SampleUniform_row mat1 a b i w1) (SampleUniform_row mat2 a b i w2).
Proof.
  intros Hrel. unfold SampleUniform_row, for_loop. rewrite <- Hshape.
  apply row_before_end.
  apply (for_from_rel
           (fun j => related mat1 mat2
                       (fun off => A off \/ row_before mat1 i j off))).
  - apply row_before_0, Hrel.
  - intros j u1 u2 Hj [Hrng HA]. rewrite <- Hrng.
    destruct (RandNext (rng u1)) as [r g'].
    apply related_store, HA.
Qed.

Lemma SampleGaussian_row_rel (fuel : nat) (A : Z -> Prop) (mu sigma : real_t)
    (i : Z) (w1 w2 : World) :
  related mat1 mat2 A w1 w2 ->
  option_Forall2
    (related mat1 mat2 (fun off => A off \/ row_offsets mat1 i off))
    (SampleGaussian_row fuel mat1 mu sigma i w1)
    (SampleGaussian_row fuel mat2 mu sigma i w2).
Proof.
  intros Hrel. unfold SampleGaussian_row, for_loop_opt. rewrite <- Hshape.
  pose proof (for_from_opt_rel
    (fun j st1 st2 =>
       fst st1 = fst st2
       /\ related mat1 mat2 (fun off => A off \/ row_before mat1 i j off)
            (snd st1) (snd st2))
    (SampleGaussian_body fuel mat1 mu sigma i)
    (SampleGaussian_body fuel mat2 mu sigma i)
    0 (Z.to_nat (extent (shape mat1) 0))
    (SFzero, SFzero, w1) (SFzero, SFzero, w2)) as Hloop.
  destruct Hloop as [[[g1 g2] u1] [[g1' g2'] u2] [_ Hfin]|].
  - split; [reflexivity|]. apply row_before_0, Hrel.
  - intros j [[g1 g2] u1] [[g1' g2'] u2] Hj [[= <- <-] [Hrng HA]].
    cbn [snd] in Hrng, HA. unfold SampleGaussian_body. rewrite <- Hrng.
    destruct (Z.land j 1 =? 0).
    + destruct (SampleNormal2D fuel (rng u1)) as [[[p1 p2] g']|];
        constructor.
      split; [reflexivity|]. apply related_store, HA.
    + constructor. split; [reflexivity|]. apply related_store, HA.
  - constructor. apply row_before_end, Hfin.
  - constructor.
Qed.

End TwoRuns.

Section TwoFills.

Context {P : Platform}.

Variables (dst1 dst2 : Tensor).
Hypothesis Hshape : shape dst1 = shape dst2.

Lemma FlatTo2D_shape : shape (FlatTo2D dst1) = shape (FlatTo2D dst2).
Proof. unfold FlatTo2D. cbn [shape]. rewrite Hshape. reflexivity. Qed.

Lemma SampleUniform_rel (A : Z -> Prop) (a b : real_t) (w1 w2 : World) :
  related (FlatTo2D dst1) (FlatTo2D dst2) A w1 w2 ->
  related (FlatTo2D dst1) (FlatTo2D dst2)
    (fun off => A off \/ offsets (FlatTo2D dst1) off)
    (SampleUniform dst1 a b w1) (SampleUniform dst2 a b w2).
Proof.
  intros Hrel. pose proof FlatTo2D_shape as Hflat.
  unfold SampleUniform, for_loop. cbv zeta. rewrite <- Hflat.
  apply rows_before_end.
  apply (for_from_rel
           (fun i => related (FlatTo2D dst1) (FlatTo2D dst2)
                       (fun off => A off \/ rows_before (FlatTo2D dst1) i off))).
  - apply rows_before_0, Hrel.
  - intros i u1 u2 Hi Hu.
    apply rows_before_succ; [lia|].
    apply (SampleUniform_row_rel _ _ Hflat), Hu.
Qed.

Lemma SampleGaussian_rel (fuel : nat) (A : Z -> Prop) (mu sigma : real_t)
    (w1 w2 : World) :
  related (FlatTo2D dst1) (FlatTo2D dst2) A w1 w2 ->
  option_Forall2
    (related (FlatTo2D dst1) (FlatTo2D dst2)
       (fun off => A off \/ offsets (FlatTo2D dst1) off))
    (SampleGaussian fuel dst1 mu sigma w1) (SampleGaussian fuel dst2 mu sigma w2).
Proof.
  intros Hrel. pose proof FlatTo2D_shape as Hflat.
  unfold SampleGaussian, for_loop_opt. cbv zeta. rewrite <- Hflat.
  pose proof (for_from_opt_rel
    (fun i => related (FlatTo2D dst1) (FlatTo2D dst2)
                (fun off => A off \/ rows_before (FlatTo2D dst1) i off))
    (fun i w => SampleGaussian_row fuel (FlatTo2D dst1) mu sigma i w)
    (fun i w => SampleGaussian_row fuel (FlatTo2D dst2) mu sigma i w)
    0 (Z.to_nat (extent (shape (FlatTo2D dst1)) 1)) w1 w2) as Hloop.
  destruct Hloop as [u1 u2 Hfin|].
  - apply rows_before_0, Hrel.
  - intros i u1 u2 Hi Hu.
    destruct (SampleGaussian_row_rel _ _ Hflat fuel _ mu sigma i u1 u2 Hu)
      as [v1 v2 Hv|]; constructor.
    apply rows_before_succ; [lia|exact Hv].
  - constructor. apply rows_before_end, Hfin.
  - constructor.
Qed.

Lemma read_tensor_agree (h1 h2 : gmap Z real_t) :
  agree (dptr dst1) (dptr dst2) h1 h2 (offsets (FlatTo2D dst1)) ->
  read_tensor h1 (FlatTo2D dst1) = read_tensor h2 (FlatTo2D dst2).
Proof.
  intros Hagree. pose proof FlatTo2D_shape as Hflat.
  unfold read_tensor. rewrite <- Hflat.
  apply flat_map_ext_in. intros i Hi%In_seqZ.
  apply map_ext_in. intros j Hj%In_seqZ.
  rewrite !cell_offset, <- Hflat.
  apply Hagree. exists i, j. auto.
Qed.

End TwoFills.

Section TwoEngines.

Context {P : Platform}.

Variables (e1 e2 : Random).
Hypothesis Hcap : capacity e1 = capacity e2.

Lemma GetTemp_rel (s : Shape) :
  outcome_rel (fun t1 t2 => shape t1 = shape t2)
    (Cpu.GetTemp e1 s) (Cpu.GetTemp e2 s).
Proof.
  unfold Cpu.GetTemp. rewrite <- Hcap.
  destruct (MSize _ <? capacity e1); constructor. reflexivity.
Qed.

Lemma related_nothing (t1 t2 : Tensor) (w1 w2 : World) :
  rng w1 = rng w2 -> related t1 t2 (fun _ => False) w1 w2.
Proof. intros Hrng. split; [exact Hrng|]. intros off []. Qed.

Lemma related_result (t1 t2 : Tensor) (w1 w2 : World) :
  shape t1 = shape t2 ->
  related (FlatTo2D t1) (FlatTo2D t2)
    (fun off => False \/ offsets (FlatTo2D t1) off) w1 w2 ->
  same_result (read_tensor (heap w1) (FlatTo2D t1), w1)
              (read_tensor (heap w2) (FlatTo2D t2), w2).
Proof.
  intros Hshape [Hrng Hagree]. split; [|exact Hrng]. cbn [fst].
  apply read_tensor_agree; [exact Hshape|].
  intros off Hoff. apply Hagree. right. exact Hoff.
Qed.

Lemma run_call_rel (fuel : nat) (c : call) (w1 w2 : World) :
  rng w1 = rng w2 ->
  option_Forall2 (outcome_rel same_result)
    (run_call fuel e1 c w1) (run_call fuel e2 c w2).
Proof.
  intros Hrng.
  destruct c as [dst a b|dst mu sigma|[] s]; cbn [run_call temp_expr].
  - do 2 constructor. apply related_result; [reflexivity|].
    apply SampleUniform_rel; [reflexivity|]. apply related_nothing, Hrng.
  - destruct (SampleGaussian_rel dst dst eq_refl fuel _ mu sigma w1 w2
                (related_nothing _ _ _ _ Hrng)) as [u1 u2 Hu|];
      do 2 constructor.
    apply related_result; [reflexivity|exact Hu].
  - unfold uniform.
    destruct (GetTemp_rel s) as [t1 t2 Ht|msg]; do 2 constructor.
    apply related_result; [exact Ht|].
    apply SampleUniform_rel; [exact Ht|]. apply related_nothing, Hrng.
  - unfold gaussian.
    destruct (GetTemp_rel s) as [t1 t2 Ht|msg]; [|do 2 constructor].
    destruct (SampleGaussian_rel t1 t2 Ht fuel _ (real_of_int 0)
                (real_of_int 1) w1 w2 (related_nothing _ _ _ _ Hrng))
      as [u1 u2 Hu|]; do 2 constructor.
    apply related_result; [exact Ht|exact Hu].
Qed.

Lemma run_calls_rel (fuel : nat) (cs : list call) (w1 w2 : World) :
  rng w1 = rng w2 ->
  observable (run_calls fuel e1 cs w1) = observable (run_calls fuel e2 cs w2).
Proof.
  revert w1 w2. induction cs as [|c cs IH]; intros w1 w2 Hrng; [reflexivity|].
  cbn [run_calls].
  destruct (run_call_rel fuel c w1 w2 Hrng)
    as [r1 r2 [[out1 u1] [out2 u2] [Hout Hu]|msg]|]; try reflexivity.
  cbn [fst snd] in Hout, Hu. subst out2.
  specialize (IH u1 u2 Hu).
  destruct (run_calls fuel e1 cs u1) as [[[outs1 v1]|msg1]|],
           (run_calls fuel e2 cs u2) as [[[outs2 v2]|msg2]|];
    cbn [observable] in IH |- *; congruence.
Qed.

End TwoEngines.

(** C9, as amended: an engine constructed with a seed and then given a
    sequence of sampling calls, with no other use of [srand] or [rand] in
    between, shows outputs (or a fatal assertion, or no result within the
    bound on the passes of the rejection loop) that depend only on the
    seed and the calls: not on the memory or the generator state it started
    from, nor on where its scratch buffer lies.  Two such runs with the
    same seed and the same calls show the same. *)
Theorem same_seed_same_outputs {P : Platform} (fuel : nat) (seed : Z)
    (cs : list call) (base1 base2 : Z) (w1 w2 : World) :
  observable (run_calls fuel (fst (construct seed base1 w1)) cs
                (snd (construct seed base1 w1)))
  = observable (run_calls fuel (fst (construct seed base2 w2)) cs
                  (snd (construct seed base2 w2))).
Proof. apply run_calls_rel; reflexivity. Qed.

(** C9, as stated, fails for two engines of one process, which share the
    generator behind [rand]: both constructed with seed 42 before either
    samples, then given the same call, they produce different outputs
    (the second continues the sequence where the first stopped). *)
Lemma shared_generator_outputs_differ :
  let P := iso_c_float in
  let dst := {| dptr := 0; shape := {| shape_ := [2; 1]; stride_ := 2 |} |} in
  let c := CallSampleUniform dst (real_of_int 0) (real_of_int 1) in
  let '(eA, wA) := construct 42 1000 {| heap := ∅; rng := 0 |} in
  let '(eB, wB) := construct 42 2000000 wA in
  match run_call 0 eA c wB with
  | Some (Ok (outA, w1)) =>
      match run_call 0 eB c w1 with
      | Some (Ok (outB, _)) => outA <> outB
      | _ => False
      end
  | _ => False
  end.
Proof. vm_compute. discriminate. Qed.

(** The same two engines, each constructed just before it samples. *)
Example reseeding_repeats_outputs :
  let P := iso_c_float in
  let dst := {| dptr := 0; shape := {| shape_ := [2; 1]; stride_ := 2 |} |} in
  let c := CallSampleUniform dst (real_of_int 0) (real_of_int 1) in
  let '(eA, wA) := construct 42 1000 {| heap := ∅; rng := 0 |} in
  match run_call 0 eA c wA with
  | Some (Ok (outA, w1)) =>
      let '(eB, wB) := construct 42 2000000 w1 in
      match run_call 0 eB c wB with
      | Some (Ok (outB, _)) =>
          outA = outB
          /\ outA = [Some (S754_finite false 9769472 (-24));
                     Some (S754_finite false 8720896 (-24))]
      | _ => False
      end
  | _ => False
  end.
Proof. vm_compute. split; reflexivity. Qed.

(** A run of three calls on one engine: a temporary of two elements, a
    Gaussian fill of a caller's tensor of three, a request beyond the
    capacity of the scratch buffer. *)
Example run_calls_outputs :
  let P := iso_c_float in
  let dst := {| dptr := 0; shape := {| shape_ := [3; 1]; stride_ := 3 |} |} in
  let small := {| shape_ := [2]; stride_ := 2 |} in
  let large := {| shape_ := [1000; 1000]; stride_ := 1000 |} in
  let '(e, w) := construct 2 5000 {| heap := ∅; rng := 0 |} in
  observable
    (run_calls 5 e [CallTemp Uniform small;
                    CallSampleGaussian dst (real_of_int 5) (real_of_int 2)] w)
  = Some (Ok [[Some (S754_finite false 14876672 (-29));
               Some (S754_finite false 11682304 (-24))];
              [Some (S754_finite false 15125688 (-23));
               Some (S754_finite false 13400292 (-22));
               Some (S754_finite false 12540447 (-21))]])
  /\ observable (run_calls 5 e [CallTemp Gaussian large] w)
     = Some (Fatal "gaussian: random engine buffer do not have enough memory").
Proof. vm_compute. split; reflexivity. Qed.

(** ** Temporaries alias the scratch buffer *)

Section Temporaries.

Context {P : Platform}.

Lemma GetTemp_base (e : Random) (s : Shape) (v : Tensor) :
  Cpu.GetTemp e s = Ok v -> dptr v = dptr (buffer_ e).
Proof.
  unfold Cpu.GetTemp. destruct (MSize _ <? capacity e); [|discriminate].
  intros [= <-]. reflexivity.
Qed.

Lemma temp_expr_inv (fuel : nat) (k : temp_kind) (e : Random) (s : Shape)
    (w w' : World) (v : Tensor) :
  temp_expr fuel k e s w = Some (Ok (v, w')) ->
  Cpu.GetTemp e s = Ok v
  /\ match k with
     | Uniform => w' = SampleUniform v (real_of_int 0) (real_of_int 1) w
     | Gaussian =>
         SampleGaussian fuel v (real_of_int 0) (real_of_int 1) w = Some w'
     end.
Proof.
  destruct k; cbn [temp_expr]; unfold uniform, gaussian;
    destruct (Cpu.GetTemp e s) as [t|msg]; try discriminate.
  - intros [= <- <-]. split; reflexivity.
  - destruct (SampleGaussian fuel t _ _ w) as [u|] eqn:Hfill; [|discriminate].
    intros [= <- <-]. split; [reflexivity|exact Hfill].
Qed.

(** The data of a temporary do not depend on what memory held before the
    call that produced it. *)
Lemma temp_expr_overwrites (fuel : nat) (k : temp_kind) (e : Random)
    (s : Shape) (w w' : World) (v : Tensor) (h : gmap Z real_t) :
  temp_expr fuel k e s w = Some (Ok (v, w')) ->
  exists u',
    temp_expr fuel k e s {| heap := h; rng := rng w |} = Some (Ok (v, u'))
    /\ related (FlatTo2D v) (FlatTo2D v) (offsets (FlatTo2D v)) w' u'.
Proof.
  intros Hcall. destruct (temp_expr_inv _ _ _ _ _ _ _ Hcall) as [Hget Hfill].
  assert (related (FlatTo2D v) (FlatTo2D v) (fun _ => False) w
            {| heap := h; rng := rng w |}) as Hrel
    by (apply related_nothing; reflexivity).
  destruct k; cbn [temp_expr]; unfold uniform, gaussian; rewrite Hget.
  - eexists. split; [reflexivity|]. subst w'.
    destruct (SampleUniform_rel v v eq_refl _ (real_of_int 0) (real_of_int 1)
                _ _ Hrel) as [Hrng Hagree].
    split; [exact Hrng|]. intros off Hoff. apply Hagree. right. exact Hoff.
  - destruct (SampleGaussian_rel v v eq_refl fuel _ (real_of_int 0)
                (real_of_int 1) _ _ Hrel) as [u u' [Hrng Hagree]|];
      [|discriminate].
    injection Hfill as ->.
    eexists. split; [reflexivity|].
    split; [exact Hrng|]. intros off Hoff. apply Hagree. right. exact Hoff.
Qed.

End Temporaries.

(** C6: the views that two successive calls of [uniform] or [gaussian]
    return on one engine both start at the base address of its scratch
    buffer; after the second call, what is read through the pointer of the
    first view at the place of any element of the second view is the datum
    of the second call, the same whatever memory held before that call. *)
Theorem temporaries_share_scratch_buffer {P : Platform} (fuel : nat)
    (e : Random) (k1 k2 : temp_kind) (s1 s2 : Shape) (w0 w1 w2 : World)
    (v1 v2 : Tensor) :
  temp_expr fuel k1 e s1 w0 = Some (Ok (v1, w1)) ->
  temp_expr fuel k2 e s2 w1 = Some (Ok (v2, w2)) ->
  dptr v1 = dptr (buffer_ e) /\ dptr v2 = dptr (buffer_ e)
  /\ forall h, exists u2,
       temp_expr fuel k2 e s2 {| heap := h; rng := rng w1 |} = Some (Ok (v2, u2))
       /\ forall i j,
            0 <= i < extent (shape (FlatTo2D v2)) 1 ->
            0 <= j < extent (shape (FlatTo2D v2)) 0 ->
            heap w2 !! (dptr v1 + (i * stride_ (shape v2) + j))
            = heap u2 !! cell (FlatTo2D v2) i j.
Proof.
  intros H1 H2.
  destruct (temp_expr_inv _ _ _ _ _ _ _ H1) as [Hget1 _].
  destruct (temp_expr_inv _ _ _ _ _ _ _ H2) as [Hget2 _].
  pose proof (GetTemp_base _ _ _ Hget1) as Hv1.
  pose proof (GetTemp_base _ _ _ Hget2) as Hv2.
  split; [exact Hv1|]. split; [exact Hv2|].
  intros h.
  destruct (temp_expr_overwrites _ _ _ _ _ _ _ h H2)
    as (u2 & Hu2 & _ & Hagree).
  exists u2. split; [exact Hu2|].
  intros i j Hi Hj. rewrite cell_offset, Hv1, <- Hv2.
  apply (Hagree (i * stride_ (shape v2) + j)).
  exists i, j. auto.
Qed.

Lemma temporaries_share_scratch_buffer_witness :
  let P := iso_c_float in
  let e := fst (construct 42 1000 {| heap := ∅; rng := 0 |}) in
  let w0 := snd (construct 42 1000 {| heap := ∅; rng := 0 |}) in
  let s1 := {| shape_ := [2]; stride_ := 2 |} in
  let s2 := {| shape_ := [3]; stride_ := 3 |} in
  let v1 := {| dptr := 1000; shape := {| shape_ := [2]; stride_ := 4 |} |} in
  let v2 := {| dptr := 1000; shape := {| shape_ := [3]; stride_ := 4 |} |} in
  let w1 := SampleUniform v1 (real_of_int 0) (real_of_int 1) w0 in
  let w2 := SampleUniform v2 (real_of_int 0) (real_of_int 1) w1 in
  dptr v1 = 1000 /\ dptr v2 = 1000
  /\ forall h, exists u2,
       temp_expr 5 Uniform e s2 {| heap := h; rng := rng w1 |} = Some (Ok (v2, u2))
       /\ forall i j,
            0 <= i < extent (shape (FlatTo2D v2)) 1 ->
            0 <= j < extent (shape (FlatTo2D v2)) 0 ->
            heap w2 !! (dptr v1 + (i * stride_ (shape v2) + j))
            = heap u2 !! cell (FlatTo2D v2) i j.
Proof.
  intros P e w0 s1 s2 v1 v2 w1 w2.
  apply (temporaries_share_scratch_buffer 5 e Uniform Uniform s1 s2 w0 w1 w2
           v1 v2); reflexivity.
Defined.

(** A run: the first element of the view of [uniform] holds one value
    before the call of [gaussian] and another one after it, the first
    element of the view of [gaussian]. *)
Example second_temporary_overwrites_first :
  let P := iso_c_float in
  let '(e, w0) := construct 42 1000 {| heap := ∅; rng := 0 |} in
  match uniform e {| shape_ := [2]; stride_ := 2 |} w0 with
  | Ok (v1, w1) =>
      match gaussian 5 e {| shape_ := [3]; stride_ := 3 |} w1 with
      | Some (Ok (v2, w2)) =>
          heap w1 !! cell (FlatTo2D v1) 0 0 = Some (S754_finite false 9769472 (-24))
          /\ heap w2 !! cell (FlatTo2D v1) 0 0 = heap w2 !! cell (FlatTo2D v2) 0 0
          /\ heap w2 !! cell (FlatTo2D v1) 0 0 <> heap w1 !! cell (FlatTo2D v1) 0 0
      | _ => False
      end
  | _ => False
  end.
Proof. vm_compute. repeat split. discriminate. Qed.

(** * Part III: further properties of the engine *)

(** ** The padded stride *)

Lemma index_modulus_multiple_of_4 (bits : Z) :
  4 <= 2 ^ bits -> 2 ^ bits = 4 * 2 ^ (bits - 2).
Proof.
  intros H4.
  assert (2 <= bits) as Hbits.
  { destruct (Z_lt_le_dec bits 2) as [Hlt|]; [|assumption].
    pose proof (Z.pow_lt_mono_r 2 bits 2 ltac:(lia) ltac:(lia) Hlt) as Hp.
    change (2 ^ 2) with 4 in Hp. lia. }
  replace bits with (2 + (bits - 2)) at 1 by lia.
  rewrite Z.pow_add_r by lia. reflexivity.
Qed.

(** X1: when [shape[0] + 3] does not wrap around, the padded stride adds at
    most three elements to [shape[0]], leaves a multiple of 4 as it is, and
    padding a padded stride changes nothing. *)
Theorem padded_stride_bounds {P : Platform} (n : Z) :
  0 <= n -> n + 3 <= IndexT.max index_bits ->
  n <= padded_stride n <= n + 3
  /\ (n mod 4 = 0 -> padded_stride n = n)
  /\ padded_stride (padded_stride n) = padded_stride n.
Proof.
  intros Hn Hmax.
  rewrite (padded_stride_no_wrap n Hn Hmax).
  pose proof (Z.div_mod (n + 3) 4 ltac:(lia)) as Hdm.
  pose proof (Z.mod_pos_bound (n + 3) 4 ltac:(lia)) as Hb.
  split; [lia|]. split.
  - intros Hmod.
    pose proof (Z.div_mod n 4 ltac:(lia)) as Hn4. rewrite Hmod in Hn4.
    replace (n + 3) with (3 + (n / 4) * 4) by lia.
    rewrite Z.div_add by lia. change (3 / 4) with 0. lia.
  - set (q := (n + 3) / 4) in *.
    assert (4 * q + 3 <= IndexT.max index_bits) as Hq.
    { unfold IndexT.max, IndexT.modulus in *. clearbody q.
      assert (4 <= 2 ^ index_bits) as H4
        by (revert Hmax; generalize (2 ^ index_bits); lia).
      apply index_modulus_multiple_of_4 in H4.
      revert Hmax H4.
      generalize (2 ^ index_bits) (2 ^ (index_bits - 2)). lia. }
    rewrite padded_stride_no_wrap by lia.
    replace (4 * q + 3) with (3 + q * 4) by lia.
    rewrite Z.div_add by lia. change (3 / 4) with 0. lia.
Qed.

Lemma padded_stride_bounds_witness :
  let P := iso_c_float in
  5 <= padded_stride 5 <= 5 + 3
  /\ (5 mod 4 = 0 -> padded_stride 5 = 5)
  /\ padded_stride (padded_stride 5) = padded_stride 5.
Proof.
  intros P. apply (padded_stride_bounds 5); vm_compute; congruence.
Defined.

(** ** The capacity assertion of the temporaries *)

Lemma least_multiple_of_4_unique (n a b : Z) :
  least_multiple_of_4_geq n a -> least_multiple_of_4_geq n b -> a = b.
Proof.
  intros (Ha4 & Hna & Hamin) (Hb4 & Hnb & Hbmin).
  pose proof (Hamin b Hb4 Hnb). pose proof (Hbmin a Ha4 Hna). lia.
Qed.

(** With no wrap-around in the padding, the count [GetTemp] compares with
    the capacity is the rounded lowest extent times the higher extents. *)
Lemma padded_count_no_wrap {P : Platform} (s : Shape) (st : Z) :
  0 <= extent s 0 -> extent s 0 + 3 <= IndexT.max index_bits ->
  least_multiple_of_4_geq (extent s 0) st ->
  padded_count s = st * product (tl (shape_ s)).
Proof.
  intros H0 Hmax Hst. unfold padded_count, MSize. cbn [stride_ shape_ with_stride].
  rewrite padded_stride_no_wrap by assumption.
  rewrite (least_multiple_of_4_unique _ _ _ Hst (round_up_least (extent s 0))).
  reflexivity.
Qed.

Lemma temporaries_fail_on_padded_count {P : Platform} (fuel : nat)
    (e : Random) (s : Shape) (w : World) :
  (uniform e s w = Fatal capacity_message <-> capacity e <= padded_count s)
  /\ (gaussian fuel e s w = Some (Fatal capacity_message)
      <-> capacity e <= padded_count s)
  /\ (capacity e <= padded_count s ->
      gaussian 0 e s w = Some (Fatal capacity_message)).
Proof.
  unfold uniform, gaussian, Cpu.GetTemp, padded_count, capacity_message.
  destruct (Z.ltb_spec (MSize (with_stride s (padded_stride (extent s 0))))
              (capacity e)) as [Hlt|Hge].
  - repeat split; try (intros; lia); try discriminate.
    intros Hg. destruct (SampleGaussian fuel _ _ _ w); discriminate.
  - repeat split; auto.
Qed.

(** X2: for a shape whose lowest extent plus 3 fits [index_t],
    [uniform(shape)] and [gaussian(shape)] of [Random<cpu>] fail with the
    message of the capacity assertion exactly when the capacity of the
    scratch buffer is at most the number of elements the shape takes once
    its lowest extent is rounded up to the next multiple of 4 ([st] times
    the product of the higher extents): a request that would fill the
    buffer exactly is refused, and [uniform] reports the message of
    [gaussian].  [gaussian] fails even when its rejection loop is allowed
    no pass, so the failure comes before any draw. *)
Theorem temporaries_fail_on_capacity {P : Platform} (fuel : nat) (e : Random)
    (s : Shape) (w : World) (st : Z) :
  0 <= extent s 0 -> extent s 0 + 3 <= IndexT.max index_bits ->
  least_multiple_of_4_geq (extent s 0) st ->
  (uniform e s w = Fatal capacity_message
   <-> capacity e <= st * product (tl (shape_ s)))
  /\ (gaussian fuel e s w = Some (Fatal capacity_message)
      <-> capacity e <= st * product (tl (shape_ s)))
  /\ (capacity e <= st * product (tl (shape_ s)) ->
      gaussian 0 e s w = Some (Fatal capacity_message)).
Proof.
  intros H0 Hmax Hst.
  rewrite <- (padded_count_no_wrap s st H0 Hmax Hst).
  apply temporaries_fail_on_padded_count.
Qed.

(** A request of 4 rows of 3 elements, padded to 4 x 4 = 16 elements, on
    a buffer of 16. *)
Lemma temporaries_fail_on_capacity_witness :
  let P := iso_c_float in
  let e := {| buffer_ := new_buffer 16 100 |} in
  let s := {| shape_ := [3; 4]; stride_ := 3 |} in
  let w := {| heap := ∅; rng := srand 1 |} in
  uniform e s w = Fatal capacity_message
  /\ gaussian 5 e s w = Some (Fatal capacity_message).
Proof.
  intros P e s w.
  destruct (temporaries_fail_on_capacity 5 e s w 4) as (Hu & Hg & _).
  - vm_compute. congruence.
  - vm_compute. congruence.
  - exact (round_up_least 3).
  - split; [apply Hu|apply Hg]; vm_compute; congruence.
Defined.

(** ** Draws *)

Section Draws.

Context {P : Platform}.

Lemma draws_succ (k : nat) (g : RandState) :
  draws (S k) g = snd (rand (draws k g)).
Proof. revert g. induction k as [|k IH]; intros g; [reflexivity|]. apply IH. Qed.

Lemma draws_add (k m : nat) (g : RandState) :
  draws (k + m) g = draws m (draws k g).
Proof. revert g. induction k as [|k IH]; intros g; [reflexivity|]. apply IH. Qed.

Lemma RandNext_state (g : RandState) : snd (RandNext g) = snd (rand g).
Proof. unfold RandNext. destruct (rand g); reflexivity. Qed.

Lemma attempt_state (g : RandState) : snd (attempt g) = draws 2 g.
Proof. rewrite attempt_draws. reflexivity. Qed.

Lemma SampleNormal2D_loop_draws (fuel : nat) (g g' : RandState)
    (x y s : real_t) :
  SampleNormal2D_loop fuel g = Some (x, y, s, g') ->
  exists k, (1 <= k <= fuel)%nat /\ g' = draws (2 * k) g.
Proof.
  revert g. induction fuel as [|fuel IH]; intros g; simpl; [discriminate|].
  pose proof (attempt_state g) as Hst.
  destruct (attempt g) as [[[x0 y0] s0] g0]. cbn [snd] in Hst. subst g0.
  destruct (rejected s0).
  - intros Hrec. destruct (IH _ Hrec) as (k & Hk & ->).
    exists (S k). split; [lia|].
    rewrite <- (draws_add 2 (2 * k)). f_equal. lia.
  - intros [= _ _ _ <-]. exists 1%nat. split; [lia|reflexivity].
Qed.

End Draws.

(** X3: a call of [SampleNormal2D] that returns has consumed two results of
    [rand] for each pass of its loop: an even number of them, at least two
    and at most twice the bound on the passes. *)
Theorem SampleNormal2D_consumes_draws {P : Platform} (fuel : nat)
    (g g' : RandState) (xx yy : real_t) :
  SampleNormal2D fuel g = Some (xx, yy, g') ->
  exists k, (1 <= k <= fuel)%nat /\ g' = draws (2 * k) g.
Proof.
  unfold SampleNormal2D.
  destruct (SampleNormal2D_loop fuel g) as [[[[x y] s] g0]|] eqn:Hloop;
    [|discriminate].
  destruct (box_muller x y s). intros [= _ _ <-].
  exact (SampleNormal2D_loop_draws fuel g g0 x y s Hloop).
Qed.

Lemma SampleNormal2D_consumes_draws_witness :
  let P := iso_c_float in
  let g' : RandState := 2993822286 in
  exists k, (1 <= k <= 7)%nat /\ g' = draws (2 * k) (srand 2).
Proof.
  intros P g'.
  apply (SampleNormal2D_consumes_draws 7 (srand 2) g'
           (S754_finite true 13408676 (-23)) (S754_finite true 15142455 (-24))).
  vm_compute. reflexivity.
Defined.

(** ** What [SampleUniform] draws and stores *)

Section UniformFill.

Context {P : Platform}.

Variables (mat : Tensor) (a b : real_t).

Lemma SampleUniform_row_rng (i : Z) (w : World) :
  rng (SampleUniform_row mat a b i w)
  = draws (Z.to_nat (extent (shape mat) 0)) (rng w).
Proof.
  unfold SampleUniform_row, for_loop.
  set (n := Z.to_nat (extent (shape mat) 0)).
  match goal with
  | |- context [for_from ?body 0 ?n ?w0] =>
      pose proof (for_from_inv
    (fun j w' => 0 <= j /\ rng w' = draws (Z.to_nat j) (rng w))
        body 0 n w0) as Hinv
  end.
  edestruct Hinv as [_ Hrng]; [| |rewrite Hrng; f_equal; lia].
  - split; [lia|reflexivity].
  - intros j w' Hj [Hj0 IH].
    pose proof (RandNext_state (rng w')) as Hst.
    destruct (RandNext (rng w')) as [r g']. cbn [snd] in Hst.
    cbn [store rng]. split; [lia|].
    rewrite Z2Nat.inj_add, Nat.add_1_r, draws_succ, <- IH by lia. exact Hst.
Qed.

Lemma filled_weaken (Q : real_t -> Prop) (d : Z) (h : gmap Z real_t)
    (A B : Z -> Prop) :
  (forall off, B off -> A off) -> filled Q d h A -> filled Q d h B.
Proof. intros HBA HA off HB. apply HA, HBA, HB. Qed.

Lemma filled_insert (Q : real_t -> Prop) (d : Z) (h : gmap Z real_t)
    (A : Z -> Prop) (c : Z) (v : real_t) :
  Q v -> filled Q d h A ->
  filled Q d (<[d + c := v]> h) (fun off => A off \/ off = c).
Proof.
  intros Hv HA off Hoff.
  destruct (decide (off = c)) as [->|Hne].
  - exists v. rewrite lookup_insert_eq. auto.
  - rewrite lookup_insert_ne by lia.
    destruct Hoff as [Hoff|Hoff]; [apply HA, Hoff|contradiction].
Qed.

Lemma filled_store (Q : real_t -> Prop) (A : Z -> Prop) (i j : Z) (v : real_t)
    (g : RandState) (w : World) :
  Q v ->
  filled Q (dptr mat) (heap w) (fun off => A off \/ row_before mat i j off) ->
  filled Q (dptr mat) (heap (store (cell mat i j) v g w))
    (fun off => A off \/ row_before mat i (j + 1) off).
Proof.
  intros Hv HA. cbn [store heap]. rewrite cell_offset.
  eapply filled_weaken; [|apply filled_insert; [exact Hv|exact HA]].
  intros off [Hoff|(j' & Hj' & ->)]; [left; left; exact Hoff|].
  destruct (decide (j' = j)) as [->|Hne]; [right; reflexivity|].
  left. right. exists j'. split; [lia|reflexivity].
Qed.

Lemma SampleUniform_row_filled (Q : real_t -> Prop) (A : Z -> Prop) (i : Z)
    (w : World) :
  (forall g, Q (rescale a b (fst (RandNext g)))) ->
  filled Q (dptr mat) (heap w) A ->
  filled Q (dptr mat) (heap (SampleUniform_row mat a b i w))
    (fun off => A off \/ row_offsets mat i off).
Proof.
  intros HQ HA. unfold SampleUniform_row, for_loop.
  eapply filled_weaken;
    [|apply (for_from_inv
               (fun j w' => filled Q (dptr mat) (heap w')
                              (fun off => A off \/ row_before mat i j off)))].
  - intros off [Hoff|(j & Hj & ->)]; [left; exact Hoff|].
    right. exists j. split; [lia|reflexivity].
  - eapply filled_weaken; [|exact HA].
    intros off [Hoff|(j' & Hj' & _)]; [exact Hoff|lia].
  - intros j w' Hj IH. specialize (HQ (rng w')).
    destruct (RandNext (rng w')) as [r g'].
    apply filled_store; assumption.
Qed.

Lemma SampleUniform_row_row_major (g : RandState) (i : Z) (w : World) :
  0 <= i -> 0 <= extent (shape mat) 0 <= stride_ (shape mat) ->
  rng w = draws (Z.to_nat (i * extent (shape mat) 0)) g ->
  row_major_upto mat a b g i (heap w) ->
  rng (SampleUniform_row mat a b i w)
  = draws (Z.to_nat ((i + 1) * extent (shape mat) 0)) g
  /\ row_major_upto mat a b g (i + 1) (heap (SampleUniform_row mat a b i w)).
Proof.
  intros Hi Hn Hrng Hupto. unfold SampleUniform_row, for_loop.
  set (n0 := extent (shape mat) 0) in *. set (st := stride_ (shape mat)) in *.
  assert (0 <= i * n0) as Hin by (apply Z.mul_nonneg_nonneg; lia).
  match goal with
  | |- context [for_from ?body 0 ?n ?w0] =>
      pose proof (for_from_inv
    (fun j w' => 0 <= j
                 /\ rng w' = draws (Z.to_nat (i * n0 + j)) g
                 /\ row_major_upto mat a b g i (heap w')
                 /\ row_major_row mat a b g i j (heap w'))
        body 0 n w0) as Hinv
  end.
  edestruct Hinv as (_ & Hrng' & Hupto' & Hrow').
  - split; [lia|]. split; [rewrite Z.add_0_r; exact Hrng|].
    split; [exact Hupto|]. intros j' Hj'. lia.
  - intros j w' Hj (Hj0 & IHrng & IHupto & IHrow).
    assert (0 <= j < n0) as Hjn by lia.
    pose proof (RandNext_state (rng w')) as Hst.
    assert (rescale a b (fst (RandNext (rng w')))
            = uniform_value a b (Z.to_nat (i * n0 + j)) g) as Hval
      by (unfold uniform_value; rewrite IHrng; reflexivity).
    destruct (RandNext (rng w')) as [r g']. cbn [fst snd] in Hst, Hval.
    cbn [store rng heap]. fold (rescale a b r). rewrite Hval.
    split; [lia|]. split; [|split].
    + replace (i * n0 + (j + 1)) with (i * n0 + j + 1) by lia.
      rewrite Z2Nat.inj_add, Nat.add_1_r, draws_succ, <- IHrng by lia.
      exact Hst.
    + intros i' j' Hi' Hj'.
      rewrite lookup_insert_ne; [apply IHupto; assumption|].
      unfold cell. fold st.
      assert (i' * st + st <= i * st) by nia. lia.
    + intros j' Hj'. destruct (decide (j' = j)) as [->|Hne].
      * apply lookup_insert_eq.
      * rewrite lookup_insert_ne by (unfold cell; lia). apply IHrow. lia.
  - replace (0 + Z.of_nat (Z.to_nat n0)) with n0 in * by lia.
    split; [rewrite Hrng'; f_equal; lia|].
    intros i' j' Hi' Hj'. destruct (decide (i' = i)) as [->|Hne].
    + apply Hrow'. exact Hj'.
    + apply Hupto'; [lia|exact Hj'].
Qed.

End UniformFill.

Section UniformWhole.

Context {P : Platform}.

Lemma SampleUniform_rng (dst : Tensor) (a b : real_t) (w : World) :
  rng (SampleUniform dst a b w)
  = draws (Z.to_nat (extent (shape (FlatTo2D dst)) 1)
           * Z.to_nat (extent (shape (FlatTo2D dst)) 0)) (rng w).
Proof.
  unfold SampleUniform, for_loop. cbv zeta.
  set (mat := FlatTo2D dst). set (m := Z.to_nat (extent (shape mat) 0)).
  match goal with
  | |- context [for_from ?body 0 ?n ?w0] =>
      pose proof (for_from_inv
    (fun i w' => 0 <= i /\ rng w' = draws (Z.to_nat i * m) (rng w))
        body 0 n w0) as Hinv
  end.
  edestruct Hinv as [_ Hrng]; [| |rewrite Hrng; f_equal; lia].
  - split; [lia|reflexivity].
  - intros i w' Hi [Hi0 IH]. split; [lia|].
    rewrite SampleUniform_row_rng, IH, <- draws_add. f_equal. fold m. lia.
Qed.

Lemma SampleUniform_filled (Q : real_t -> Prop) (dst : Tensor) (a b : real_t)
    (w : World) :
  (forall g, Q (rescale a b (fst (RandNext g)))) ->
  filled Q (dptr dst) (heap (SampleUniform dst a b w)) (offsets (FlatTo2D dst)).
Proof.
  intros HQ. unfold SampleUniform, for_loop. cbv zeta.
  set (mat := FlatTo2D dst).
  eapply filled_weaken;
    [|apply (for_from_inv
               (fun i w' => 0 <= i
                            /\ filled Q (dptr mat) (heap w')
                                 (rows_before mat i)))].
  - intros off (i & j & Hi & Hj & ->). exists i, j. split; [lia|]. auto.
  - split; [lia|]. intros off (i & j & Hi & _). lia.
  - intros i w' Hi [Hi0 IH]. split; [lia|].
    eapply filled_weaken; [|apply SampleUniform_row_filled; [exact HQ|exact IH]].
    intros off (i' & j & Hi' & Hj & ->).
    destruct (decide (i' = i)) as [->|Hne].
    + right. exists j. auto.
    + left. exists i', j. split; [lia|]. auto.
Qed.

Lemma SampleUniform_cells_in_order (dst : Tensor) (a b : real_t) (w : World) :
  0 <= extent (shape (FlatTo2D dst)) 0 <= stride_ (shape (FlatTo2D dst)) ->
  row_major_upto (FlatTo2D dst) a b (rng w)
    (0 + Z.of_nat (Z.to_nat (extent (shape (FlatTo2D dst)) 1)))
    (heap (SampleUniform dst a b w)).
Proof.
  intros Hn. unfold SampleUniform, for_loop. cbv zeta.
  set (mat := FlatTo2D dst) in *.
  match goal with
  | |- context [for_from ?body 0 ?n ?w0] =>
      pose proof (for_from_inv
    (fun i w' => 0 <= i
                 /\ rng w' = draws (Z.to_nat (i * extent (shape mat) 0)) (rng w)
                 /\ row_major_upto mat a b (rng w) i (heap w'))
        body 0 n w0) as Hinv
  end.
  edestruct Hinv as (_ & _ & Hupto); [| |exact Hupto].
  - split; [lia|]. split; [reflexivity|]. intros i' j' Hi'. lia.
  - intros i w' Hi (Hi0 & IHrng & IHupto). split; [lia|].
    apply SampleUniform_row_row_major; assumption.
Qed.

End UniformWhole.

(** X4: [SampleUniform] consumes one result of [rand] for each element of
    the flattened destination, whatever the bounds and the memory: it
    leaves the generator where [shape[1] * shape[0]] calls of [rand]
    leave it. *)
Theorem SampleUniform_consumes_draws {P : Platform} (dst : Tensor)
    (a b : real_t) (w : World) :
  rng (SampleUniform dst a b w)
  = draws (Z.to_nat (extent (shape (FlatTo2D dst)) 1)
           * Z.to_nat (extent (shape (FlatTo2D dst)) 0)) (rng w).
Proof. apply SampleUniform_rng. Qed.

(** X5: when the rows of the destination do not overlap (the stride is at
    least the inner extent), [SampleUniform] fills it in row-major order:
    after the call element [(i, j)] holds [r * (b - a) + a] for the result
    [r] of the call of [RandNext] number [i * shape[0] + j]. *)
Theorem SampleUniform_row_major {P : Platform} (dst : Tensor) (a b : real_t)
    (w : World) (i j : Z) :
  extent (shape (FlatTo2D dst)) 0 <= stride_ (shape (FlatTo2D dst)) ->
  0 <= i < extent (shape (FlatTo2D dst)) 1 ->
  0 <= j < extent (shape (FlatTo2D dst)) 0 ->
  heap (SampleUniform dst a b w) !! cell (FlatTo2D dst) i j
  = Some (uniform_value a b
            (Z.to_nat (i * extent (shape (FlatTo2D dst)) 0 + j)) (rng w)).
Proof.
  intros Hst Hi Hj.
  apply (SampleUniform_cells_in_order dst a b w); lia.
Qed.

Lemma SampleUniform_row_major_witness :
  let P := iso_c_float in
  let dst := {| dptr := 0; shape := {| shape_ := [3; 2]; stride_ := 4 |} |} in
  let a := real_of_int 2 in
  let b := real_of_int 5 in
  let w := {| heap := ∅; rng := srand 42 |} in
  heap (SampleUniform dst a b w) !! cell (FlatTo2D dst) 1 2
  = Some (uniform_value a b 5 (rng w)).
Proof.
  intros P dst a b w.
  apply (SampleUniform_row_major dst a b w 1 2); vm_compute; repeat split;
    congruence.
Defined.

(** ** The lower bound of the default [SampleUniform] *)

Section LowerBound.

Context {P : Platform}.

Hypothesis Hconst : uniform_constants_finite = true.

Lemma RandNext_nonneg (g : RandState) : has_sign false (fst (RandNext g)).
Proof.
  unfold uniform_constants_finite in Hconst.
  apply andb_true_iff in Hconst as [_ Hden].
  unfold RandNext. pose proof (rand_range g) as Hr.
  destruct (rand g) as [r g']. cbn [fst] in *.
  apply SFdiv_nonneg; [|exact Hden].
  apply binary_normalize_nonneg. lia.
Qed.

Lemma rescale_unit_nonneg (r : real_t) :
  has_sign false r ->
  has_sign false (rescale (real_of_int 0) (real_of_int 1) r).
Proof.
  unfold uniform_constants_finite in Hconst.
  apply andb_true_iff in Hconst as [H1 _].
  intros Hr. unfold rescale.
  change (real_of_int 0) with (S754_zero false).
  destruct (real_of_int 1) as [?|?| |[] m e]; try discriminate.
  apply SFadd_nonneg; [|reflexivity].
  change false with (xorb false false) at 1.
  apply SFmul_sign; [exact Hr|reflexivity|]. right. left. reflexivity.
Qed.

End LowerBound.

(** X6: [SampleUniform] with the default bounds [0.0f] and [1.0f], which
    is also what [uniform(shape)] runs, leaves in every element of the
    destination a number that is not NaN and not below zero. *)
Theorem default_SampleUniform_nonneg {P : Platform} (dst : Tensor) (w : World)
    (i j : Z) :
  uniform_constants_finite = true ->
  0 <= i < extent (shape (FlatTo2D dst)) 1 ->
  0 <= j < extent (shape (FlatTo2D dst)) 0 ->
  exists v,
    heap (SampleUniform dst (real_of_int 0) (real_of_int 1) w)
      !! cell (FlatTo2D dst) i j = Some v
    /\ v <> S754_nan /\ SFleb SFzero v = true.
Proof.
  intros Hconst Hi Hj.
  destruct (SampleUniform_filled (has_sign false) dst (real_of_int 0)
              (real_of_int 1) w) with (off := i * stride_ (shape dst) + j)
    as (v & Hv & Hsign).
  - intros g. apply rescale_unit_nonneg, RandNext_nonneg; exact Hconst.
  - exists i, j. auto.
  - exists v. rewrite cell_offset. split; [exact Hv|].
    split; [exact (has_sign_not_nan false v Hsign)|].
    apply nonneg_leb_zero, Hsign.
Qed.

Lemma default_SampleUniform_nonneg_witness :
  let P := glibc_lcg_float in
  let dst := {| dptr := 0; shape := {| shape_ := [3; 2]; stride_ := 4 |} |} in
  let w := {| heap := ∅; rng := srand 230538014 |} in
  exists v,
    heap (SampleUniform dst (real_of_int 0) (real_of_int 1) w)
      !! cell (FlatTo2D dst) 0 0 = Some v
    /\ v <> S754_nan /\ SFleb SFzero v = true.
Proof.
  intros P dst w.
  apply (default_SampleUniform_nonneg dst w 0 0); vm_compute; repeat split;
    congruence.
Defined.

(** ** Loops that may not return *)

Lemma for_from_opt_inv {St : Type} (Inv : Z -> St -> Prop)
    (body : Z -> St -> option St) (i : Z) (n : nat) (s s' : St) :
  Inv i s ->
  (forall k t t', i <= k < i + Z.of_nat n -> Inv k t -> body k t = Some t' ->
                  Inv (k + 1) t') ->
  for_from_opt body i n s = Some s' ->
  Inv (i + Z.of_nat n) s'.
Proof.
  revert i s. induction n as [|n IH]; intros i s Hi Hstep.
  - replace (i + Z.of_nat 0) with i by lia. simpl. intros [= <-]. exact Hi.
  - replace (i + Z.of_nat (S n)) with ((i + 1) + Z.of_nat n) by lia. simpl.
    destruct (body i s) as [t|] eqn:Hbody; [|discriminate].
    apply IH.
    + apply (Hstep i s t); [lia|exact Hi|exact Hbody].
    + intros k u u' Hk. apply Hstep. lia.
Qed.

(** ** What [SampleGaussian] writes and draws *)

Section GaussianFill.

Context {P : Platform}.

Variables (fuel : nat) (mat : Tensor) (mu sigma : real_t).

Lemma SampleGaussian_body_store (i j : Z) (g1 g2 g1' g2' : real_t)
    (w w' : World) :
  SampleGaussian_body fuel mat mu sigma i j (g1, g2, w) = Some (g1', g2', w') ->
  exists v g, w' = store (cell mat i j) v g w.
Proof.
  unfold SampleGaussian_body.
  destruct (Z.land j 1 =? 0).
  - destruct (SampleNormal2D fuel (rng w)) as [[[p1 p2] g']|]; [|discriminate].
    intros [= _ _ <-]. eauto.
  - intros [= _ _ <-]. eauto.
Qed.

Lemma SampleGaussian_row_frame (i : Z) (w w' : World) (p : Z) :
  0 <= i < extent (shape mat) 1 -> ~ in_footprint mat p ->
  SampleGaussian_row fuel mat mu sigma i w = Some w' ->
  heap w' !! p = heap w !! p.
Proof.
  intros Hi Hp. unfold SampleGaussian_row, for_loop_opt.
  destruct (for_from_opt _ 0 _ _) as [[[g1 g2] u]|] eqn:Hloop; [|discriminate].
  intros [= <-].
  apply (for_from_opt_inv (fun _ st => heap (snd st) !! p = heap w !! p))
    in Hloop; [exact Hloop|reflexivity|].
  intros j [[h1 h2] t] [[h1' h2'] t'] Hj IH Hbody. cbn [snd] in *.
  destruct (SampleGaussian_body_store _ _ _ _ _ _ _ _ Hbody) as (v & g & ->).
  cbn [store heap]. rewrite lookup_insert_ne; [exact IH|].
  intros Heq. apply Hp. exists i, j. split; [exact Hi|]. split; [lia|].
  symmetry. exact Heq.
Qed.

Lemma SampleGaussian_row_filled (A : Z -> Prop) (i : Z) (w w' : World) :
  filled (fun _ => True) (dptr mat) (heap w) A ->
  SampleGaussian_row fuel mat mu sigma i w = Some w' ->
  filled (fun _ => True) (dptr mat) (heap w')
    (fun off => A off \/ row_offsets mat i off).
Proof.
  intros HA. unfold SampleGaussian_row, for_loop_opt.
  destruct (for_from_opt _ 0 _ _) as [[[g1 g2] u]|] eqn:Hloop; [|discriminate].
  intros [= <-].
  apply (for_from_opt_inv
           (fun j st => filled (fun _ => True) (dptr mat) (heap (snd st))
                          (fun off => A off \/ row_before mat i j off)))
    in Hloop.
  - eapply filled_weaken; [|exact Hloop].
    intros off [Hoff|(j & Hj & ->)]; [left; exact Hoff|].
    right. exists j. split; [lia|reflexivity].
  - eapply filled_weaken; [|exact HA].
    intros off [Hoff|(j' & Hj' & _)]; [exact Hoff|lia].
  - intros j [[h1 h2] t] [[h1' h2'] t'] Hj IH Hbody. cbn [snd] in *.
    destruct (SampleGaussian_body_store _ _ _ _ _ _ _ _ Hbody) as (v & g & ->).
    apply filled_store; [exact I|exact IH].
Qed.

Lemma SampleGaussian_row_rng (i : Z) (w : World) :
  option_map rng (SampleGaussian_row fuel mat mu sigma i w)
  = option_map snd
      (draw_pairs fuel (pairs_per_row (extent (shape mat) 0)) (rng w)).
Proof.
  unfold SampleGaussian_row, for_loop_opt, pairs_per_row.
  etransitivity.
  - apply (f_equal (option_map rng)).
    exact (SampleGaussian_loop_pairs fuel mat mu sigma i
             (Z.to_nat (extent (shape mat) 0)) 0 SFzero SFzero w).
  - destruct (draw_pairs fuel _ (rng w)) as [[ps g']|]; reflexivity.
Qed.

Lemma draw_pairs_add (k m : nat) (g : RandState) :
  option_map snd (draw_pairs fuel (k + m) g)
  = match draw_pairs fuel k g with
    | Some (_, g') => option_map snd (draw_pairs fuel m g')
    | None => None
    end.
Proof.
  revert g. induction k as [|k IH]; intros g; [reflexivity|].
  cbn [Nat.add draw_pairs].
  destruct (SampleNormal2D fuel g) as [[[p1 p2] g1]|]; [|reflexivity].
  specialize (IH g1).
  destruct (draw_pairs fuel (k + m) g1) as [[ps g2]|],
           (draw_pairs fuel k g1) as [[ps' g2']|]; cbn in *;
    try exact IH; try reflexivity.
Qed.

Lemma SampleGaussian_rows_rng (n : nat) (i : Z) (w : World) :
  option_map rng
    (for_from_opt (fun i w => SampleGaussian_row fuel mat mu sigma i w) i n w)
  = option_map snd
      (draw_pairs fuel (n * pairs_per_row (extent (shape mat) 0)) (rng w)).
Proof.
  revert i w. induction n as [|n IH]; intros i w; [reflexivity|].
  cbn [for_from_opt Nat.mul]. rewrite draw_pairs_add.
  pose proof (SampleGaussian_row_rng i w) as Hrow.
  destruct (SampleGaussian_row fuel mat mu sigma i w) as [w1|],
           (draw_pairs fuel _ (rng w)) as [[ps g1]|]; cbn in Hrow;
    try discriminate; [|reflexivity].
  injection Hrow as <-. apply IH.
Qed.

End GaussianFill.

Lemma Some_default {A : Type} (o : option A) (d : A) :
  match o with Some _ => true | None => false end = true ->
  o = Some (default d o).
Proof. destruct o; [reflexivity|discriminate]. Qed.

Section GaussianWhole.

Context {P : Platform}.

Variables (fuel : nat) (dst : Tensor) (mu sigma : real_t).

Lemma SampleGaussian_outside_footprint (w w' : World) (p : Z) :
  ~ in_footprint (FlatTo2D dst) p ->
  SampleGaussian fuel dst mu sigma w = Some w' ->
  heap w' !! p = heap w !! p.
Proof.
  intros Hp. unfold SampleGaussian, for_loop_opt. cbv zeta. intros Hloop.
  apply (for_from_opt_inv (fun _ u => heap u !! p = heap w !! p)) in Hloop;
    [exact Hloop|reflexivity|].
  intros i u u' Hi IH Hrow.
  rewrite (SampleGaussian_row_frame fuel (FlatTo2D dst) mu sigma i u u' p);
    trivial. lia.
Qed.

Lemma SampleGaussian_filled (w w' : World) :
  SampleGaussian fuel dst mu sigma w = Some w' ->
  filled (fun _ => True) (dptr dst) (heap w') (offsets (FlatTo2D dst)).
Proof.
  unfold SampleGaussian, for_loop_opt. cbv zeta. intros Hloop.
  set (mat := FlatTo2D dst) in *.
  apply (for_from_opt_inv
           (fun i u => 0 <= i
                       /\ filled (fun _ => True) (dptr mat) (heap u)
                            (rows_before mat i))) in Hloop.
  - destruct Hloop as [_ Hfilled].
    eapply filled_weaken; [|exact Hfilled].
    intros off (i & j & Hi & Hj & ->). exists i, j. split; [lia|]. auto.
  - split; [lia|]. intros off (i & j & Hi & _). lia.
  - intros i u u' Hi [Hi0 IH] Hrow. split; [lia|].
    eapply filled_weaken;
      [|exact (SampleGaussian_row_filled fuel mat mu sigma _ i u u' IH Hrow)].
    intros off (i' & j & Hi' & Hj & ->).
    destruct (decide (i' = i)) as [->|Hne].
    + right. exists j. auto.
    + left. exists i', j. split; [lia|]. auto.
Qed.

Lemma SampleGaussian_rng (w : World) :
  option_map rng (SampleGaussian fuel dst mu sigma w)
  = option_map snd
      (draw_pairs fuel
         (Z.to_nat (extent (shape (FlatTo2D dst)) 1)
          * pairs_per_row (extent (shape (FlatTo2D dst)) 0))
         (rng w)).
Proof. apply SampleGaussian_rows_rng. Qed.

End GaussianWhole.

(** X7: [SampleGaussian(dst, mu, sigma)], when it returns, has changed
    memory only at the elements of [dst]. *)
Theorem SampleGaussian_writes_only_dst {P : Platform} (fuel : nat)
    (dst : Tensor) (mu sigma : real_t) (w w' : World) :
  SampleGaussian fuel dst mu sigma w = Some w' ->
  forall p, ~ in_footprint (FlatTo2D dst) p -> heap w' !! p = heap w !! p.
Proof.
  intros Hrun p Hp.
  exact (SampleGaussian_outside_footprint fuel dst mu sigma w w' p Hp Hrun).
Qed.

Lemma SampleGaussian_writes_only_dst_witness :
  let P := iso_c_float in
  let dst := {| dptr := 0; shape := {| shape_ := [3; 2]; stride_ := 4 |} |} in
  let mu := real_of_int 5 in
  let sigma := real_of_int 2 in
  let w := {| heap := {[ 3 := real_of_int 7 ]}; rng := srand 2 |} in
  let w' := default w (SampleGaussian 5 dst mu sigma w) in
  heap w' !! 3 = heap w !! 3.
Proof.
  intros P dst mu sigma w w'.
  apply (SampleGaussian_writes_only_dst 5 dst mu sigma w w').
  - apply Some_default. vm_compute. reflexivity.
  - intros (i & j & Hi & Hj & Hp).
    cbn in Hi, Hj, Hp. unfold cell in Hp. cbn in Hp.
    change (IndexT.mul 32 1 2) with 2 in Hi. lia.
Defined.

(** X8: after [SampleUniform], and after [SampleGaussian] when it returns,
    every element of the flattened destination holds a value: none is
    skipped, whatever memory held before. *)
Theorem fillers_define_every_element {P : Platform} (fuel : nat) (dst : Tensor)
    (a b mu sigma : real_t) (w : World) (i j : Z) :
  0 <= i < extent (shape (FlatTo2D dst)) 1 ->
  0 <= j < extent (shape (FlatTo2D dst)) 0 ->
  is_Some (heap (SampleUniform dst a b w) !! cell (FlatTo2D dst) i j)
  /\ forall w', SampleGaussian fuel dst mu sigma w = Some w' ->
                is_Some (heap w' !! cell (FlatTo2D dst) i j).
Proof.
  intros Hi Hj.
  assert (offsets (FlatTo2D dst) (i * stride_ (shape dst) + j)) as Hoff
    by (exists i, j; auto).
  rewrite cell_offset. split.
  - destruct (SampleUniform_filled (fun _ => True) dst a b w (fun _ => I) _ Hoff)
      as (v & Hv & _).
    exists v. exact Hv.
  - intros w' Hrun.
    destruct (SampleGaussian_filled fuel dst mu sigma w w' Hrun _ Hoff)
      as (v & Hv & _).
    exists v. exact Hv.
Qed.

Lemma fillers_define_every_element_witness :
  let P := iso_c_float in
  let dst := {| dptr := 0; shape := {| shape_ := [3; 2]; stride_ := 4 |} |} in
  let w := {| heap := ∅; rng := srand 2 |} in
  is_Some (heap (SampleUniform dst (real_of_int 0) (real_of_int 1) w)
             !! cell (FlatTo2D dst) 1 2)
  /\ forall w', SampleGaussian 5 dst (real_of_int 5) (real_of_int 2) w = Some w' ->
                is_Some (heap w' !! cell (FlatTo2D dst) 1 2).
Proof.
  intros P dst w.
  apply (fillers_define_every_element 5 dst); vm_compute; repeat split;
    congruence.
Defined.

(** X9: [SampleGaussian] on a flattened destination of [shape[1]] rows of
    [shape[0]] elements returns exactly when [shape[1] * ceil(shape[0]/2)]
    successive calls of [SampleNormal2D] return, and leaves the generator
    where these calls leave it: the pair left over by a row of odd length
    is not carried to the next row. *)
Theorem SampleGaussian_consumes_pairs {P : Platform} (fuel : nat)
    (dst : Tensor) (mu sigma : real_t) (w : World) :
  option_map rng (SampleGaussian fuel dst mu sigma w)
  = option_map snd
      (draw_pairs fuel
         (Z.to_nat (extent (shape (FlatTo2D dst)) 1)
          * pairs_per_row (extent (shape (FlatTo2D dst)) 0))
         (rng w)).
Proof. apply SampleGaussian_rng. Qed.

(** ** The temporaries stay inside the scratch buffer *)

Lemma fold_index_mul_le (bits : Z) (l : list Z) :
  0 < 2 ^ bits -> Forall (fun n => 0 <= n) l ->
  forall acc' acc, 0 <= acc' <= acc ->
    0 <= fold_left (IndexT.mul bits) l acc' <= fold_left Z.mul l acc.
Proof.
  intros Hpos Hl. induction Hl as [|x l Hx Hl IH]; intros acc' acc Hacc;
    simpl; [exact Hacc|].
  apply IH. unfold IndexT.mul, IndexT.wrap, IndexT.modulus.
  pose proof (Z.mod_pos_bound (acc' * x) (2 ^ bits) Hpos) as Hb.
  pose proof (Z.mod_le (acc' * x) (2 ^ bits)
                ltac:(apply Z.mul_nonneg_nonneg; lia) Hpos) as Hle.
  pose proof (Z.mul_le_mono_nonneg_r acc' acc x Hx ltac:(lia)) as Hmono.
  lia.
Qed.

Lemma extent_0_nonneg (s : Shape) : extents_nonneg s -> 0 <= extent s 0.
Proof.
  unfold extents_nonneg, extent. destruct 1; simpl; [lia|assumption].
Qed.

Section WithinBuffer.

Context {P : Platform}.

Variables (e : Random) (s : Shape).
Hypothesis Hnonneg : extents_nonneg s.
Hypothesis Hmax : extent s 0 + 3 <= IndexT.max index_bits.

Lemma GetTemp_footprint_in_buffer (t : Tensor) (p : Z) :
  Cpu.GetTemp e s = Ok t -> in_footprint (FlatTo2D t) p -> in_buffer e p.
Proof.
  pose proof (extent_0_nonneg s Hnonneg) as Hn0.
  pose proof (padded_stride_no_wrap _ Hn0 Hmax) as Hst.
  pose proof (Z.div_mod (extent s 0 + 3) 4 ltac:(lia)) as Hdm.
  pose proof (Z.mod_pos_bound (extent s 0 + 3) 4 ltac:(lia)) as Hb.
  assert (0 < 2 ^ index_bits) as Hpos
    by (unfold IndexT.max, IndexT.modulus in Hmax; lia).
  assert (Forall (fun n => 0 <= n) (tl (shape_ s))) as Htl
    by (destruct Hnonneg; simpl; [constructor|assumption]).
  pose proof (fold_index_mul_le index_bits (tl (shape_ s)) Hpos Htl 1 1
                ltac:(lia)) as Hrows.
  fold (product (tl (shape_ s))) in Hrows.
  unfold Cpu.GetTemp, MSize. cbn [with_stride stride_ shape_].
  set (st := padded_stride (extent s 0)) in *.
  destruct (Z.ltb_spec (st * product (tl (shape_ s))) (capacity e))
    as [Hcap|]; [|discriminate].
  intros [= <-] (i & j & Hi & Hj & ->).
  unfold cell, in_buffer. cbn in Hi, Hj |- *.
  fold st.
  set (rows := fold_left (IndexT.mul index_bits) (tl (shape_ s)) 1) in *.
  change (nth 0 (shape_ s) 0) with (extent s 0) in Hj.
  assert (0 <= i * st) by (apply Z.mul_nonneg_nonneg; lia).
  assert (i * st + st <= product (tl (shape_ s)) * st) by nia.
  lia.
Qed.

Lemma temp_expr_outside_buffer (fuel : nat) (k : temp_kind) (w w' : World)
    (v : Tensor) (p : Z) :
  temp_expr fuel k e s w = Some (Ok (v, w')) -> ~ in_buffer e p ->
  heap w' !! p = heap w !! p.
Proof.
  intros Hcall Hp.
  destruct (temp_expr_inv _ _ _ _ _ _ _ Hcall) as [Hget Hfill].
  assert (~ in_footprint (FlatTo2D v) p) as Hout
    by (intros Hin; apply Hp; exact (GetTemp_footprint_in_buffer v p Hget Hin)).
  destruct k.
  - subst w'. apply SampleUniform_outside_footprint, Hout.
  - exact (SampleGaussian_outside_footprint fuel v _ _ w w' p Hout Hfill).
Qed.

End WithinBuffer.

(** X10: for a shape without negative extents whose [shape[0] + 3] does not
    wrap around, the view that [Random<cpu>::GetTemp] returns lies inside
    the scratch buffer: each of its elements is one of the [capacity]
    elements from the base address on. *)
Theorem GetTemp_view_within_buffer {P : Platform} (e : Random) (s : Shape)
    (t : Tensor) (p : Z) :
  extents_nonneg s -> extent s 0 + 3 <= IndexT.max index_bits ->
  Cpu.GetTemp e s = Ok t -> in_footprint (FlatTo2D t) p -> in_buffer e p.
Proof.
  intros Hnonneg Hmax.
  exact (GetTemp_footprint_in_buffer e s Hnonneg Hmax t p).
Qed.

Lemma GetTemp_view_within_buffer_witness :
  let P := iso_c_float in
  let e := {| buffer_ := new_buffer 16 100 |} in
  let s := {| shape_ := [3; 3]; stride_ := 3 |} in
  let t := {| dptr := 100; shape := {| shape_ := [3; 3]; stride_ := 4 |} |} in
  in_buffer e (cell (FlatTo2D t) 2 2).
Proof.
  intros P e s t.
  apply (GetTemp_view_within_buffer e s t).
  - repeat constructor; lia.
  - vm_compute. congruence.
  - reflexivity.
  - exists 2, 2. vm_compute. repeat split; congruence.
Defined.

(** X11: under the same conditions a call of [uniform(shape)] or
    [gaussian(shape)] of [Random<cpu>] that returns a view has changed no
    memory outside the scratch buffer of the engine. *)
Theorem temporaries_write_within_buffer {P : Platform} (fuel : nat)
    (k : temp_kind) (e : Random) (s : Shape) (w w' : World) (v : Tensor) :
  extents_nonneg s -> extent s 0 + 3 <= IndexT.max index_bits ->
  temp_expr fuel k e s w = Some (Ok (v, w')) ->
  forall p, ~ in_buffer e p -> heap w' !! p = heap w !! p.
Proof.
  intros Hnonneg Hmax Hcall p Hp.
  exact (temp_expr_outside_buffer e s Hnonneg Hmax fuel k w w' v p Hcall Hp).
Qed.

Lemma temporaries_write_within_buffer_witness :
  let P := iso_c_float in
  let e := {| buffer_ := new_buffer 16 100 |} in
  let s := {| shape_ := [3; 3]; stride_ := 3 |} in
  let v := {| dptr := 100; shape := {| shape_ := [3; 3]; stride_ := 4 |} |} in
  let w := {| heap := {[ 99 := real_of_int 7 ]}; rng := srand 42 |} in
  let w' := SampleUniform v (real_of_int 0) (real_of_int 1) w in
  heap w' !! 99 = heap w !! 99.
Proof.
  intros P e s v w w'.
  apply (temporaries_write_within_buffer 0 Uniform e s w w' v).
  - repeat constructor; lia.
  - vm_compute. congruence.
  - reflexivity.
  - unfold in_buffer. cbn. lia.
Defined.

(** Without the condition on [shape[0]] the check of [GetTemp] does not
    protect the buffer: with a 32-bit [index_t] the shape [[2^32 - 1]]
    gets stride 0 and passes it, for a view of [2^32 - 1] elements over a
    buffer of 16. *)
Example GetTemp_wrapped_view_exceeds_buffer :
  let P := iso_c_float in
  let e := {| buffer_ := new_buffer 16 100 |} in
  let s := {| shape_ := [4294967295]; stride_ := 4294967295 |} in
  match Cpu.GetTemp e s with
  | Ok t =>
      padded_count s = 0
      /\ extent (shape (FlatTo2D t)) 0 = 4294967295
      /\ cell (FlatTo2D t) 0 16 = 100 + capacity e
  | Fatal _ => False
  end.
Proof. vm_compute. repeat split. Qed.

(** ** [SampleGaussian] in row-major order *)

Section GaussianRowMajor.

Context {P : Platform}.

Variables (fuel : nat) (mat : Tensor) (mu sigma : real_t).

(** The rows before [i] hold the scalars of the pairs [ps]. *)
Lemma SampleGaussian_rows_row_major (g0 : RandState) (n : nat) (w w' : World) :
  0 <= extent (shape mat) 0 <= stride_ (shape mat) ->
  rng w = g0 ->
  for_from_opt (fun i w => SampleGaussian_row fuel mat mu sigma i w) 0 n w
  = Some w' ->
  exists ps,
    draw_pairs fuel (n * pairs_per_row (extent (shape mat) 0)) g0
    = Some (ps, rng w')
    /\ forall i j, 0 <= i < Z.of_nat n -> 0 <= j < extent (shape mat) 0 ->
         heap w' !! cell mat i j
         = gaussian_scalars mu sigma ps
             !! (Z.to_nat i * (2 * pairs_per_row (extent (shape mat) 0))
                 + Z.to_nat j)%nat.
Proof.
  intros Hst Hg0 Hloop.
  set (n0 := extent (shape mat) 0) in *. set (k := pairs_per_row n0) in *.
  pose proof (le_twice_div2_succ (Z.to_nat n0)) as Hk. fold (pairs_per_row n0) in Hk.
  fold k in Hk.
  apply (for_from_opt_inv
    (fun i u =>
       0 <= i
       /\ exists ps,
            draw_pairs fuel (Z.to_nat i * k) g0 = Some (ps, rng u)
            /\ forall i' j', 0 <= i' < i -> 0 <= j' < n0 ->
                 heap u !! cell mat i' j'
                 = gaussian_scalars mu sigma ps
                     !! (Z.to_nat i' * (2 * k) + Z.to_nat j')%nat))
    in Hloop.
  - destruct Hloop as (_ & ps & Hps & Hcells).
    replace (Z.to_nat (0 + Z.of_nat n)) with n in Hps by lia.
    exists ps. split; [exact Hps|].
    intros i j Hi Hj. apply Hcells; lia.
  - split; [lia|]. exists []. split; [cbn; rewrite Hg0; reflexivity|].
    intros i' j' Hi'. lia.
  - intros i u u' Hi (Hi0 & ps & Hps & Hcells) Hrow. split; [lia|].
    rewrite SampleGaussian_row_eq in Hrow. fold n0 k in Hrow.
    destruct (draw_pairs fuel k (rng u)) as [[psr g']|] eqn:Hpsr;
      [|discriminate].
    injection Hrow as <-. cbn [heap rng].
    pose proof (draw_pairs_length fuel _ _ _ _ Hps) as Hlen.
    pose proof (draw_pairs_length fuel _ _ _ _ Hpsr) as Hlenr.
    exists (ps ++ psr). split.
    + replace (Z.to_nat (i + 1) * k)%nat with (Z.to_nat i * k + k)%nat by lia.
      rewrite draw_pairs_app, Hps, Hpsr. reflexivity.
    + intros i' j' Hi' Hj'.
      rewrite gaussian_scalars_app.
      destruct (decide (i' = i)) as [->|Hne].
      * replace (Z.to_nat i * (2 * k) + Z.to_nat j')%nat
          with (length (gaussian_scalars mu sigma ps) + Z.to_nat j')%nat
          by (rewrite gaussian_scalars_length; lia).
        rewrite lookup_app_r, Nat.add_comm, Nat.add_sub by lia.
        assert (Z.to_nat j' < length (gaussian_scalars mu sigma psr))%nat
          as Hlt by (rewrite gaussian_scalars_length; lia).
        destruct (lookup_lt_is_Some_2 _ _ Hlt) as [v Hv]. rewrite Hv.
        replace j' with (0 + Z.of_nat (Z.to_nat j')) at 1 by lia.
        apply write_row_lookup. rewrite lookup_take_lt by lia. exact Hv.
      * rewrite write_row_frame.
        -- rewrite Hcells by lia.
           rewrite lookup_app_l; [reflexivity|].
           rewrite gaussian_scalars_length.
           assert (Z.to_nat i' + 1 <= Z.to_nat i)%nat by lia. nia.
        -- intros c Hc. unfold cell.
           assert (i' * stride_ (shape mat) + stride_ (shape mat)
                   <= i * stride_ (shape mat)) by nia.
           lia.
Qed.

End GaussianRowMajor.

(** X12: when the rows of the destination do not overlap,
    [SampleGaussian], when it returns, has filled the destination in
    row-major order with the scalars [mu + g*sigma] of the pairs that
    [shape[1] * ceil(shape[0]/2)] successive calls of [SampleNormal2D]
    return, each row starting with a new pair: element [(i, j)] holds
    scalar number [2 * ceil(shape[0]/2) * i + j]. *)
Theorem SampleGaussian_row_major {P : Platform} (fuel : nat) (dst : Tensor)
    (mu sigma : real_t) (w w' : World) :
  extent (shape (FlatTo2D dst)) 0 <= stride_ (shape (FlatTo2D dst)) ->
  SampleGaussian fuel dst mu sigma w = Some w' ->
  exists ps,
    draw_pairs fuel
      (Z.to_nat (extent (shape (FlatTo2D dst)) 1)
       * pairs_per_row (extent (shape (FlatTo2D dst)) 0)) (rng w)
    = Some (ps, rng w')
    /\ forall i j,
         0 <= i < extent (shape (FlatTo2D dst)) 1 ->
         0 <= j < extent (shape (FlatTo2D dst)) 0 ->
         heap w' !! cell (FlatTo2D dst) i j
         = gaussian_scalars mu sigma ps
             !! (Z.to_nat i
                 * (2 * pairs_per_row (extent (shape (FlatTo2D dst)) 0))
                 + Z.to_nat j)%nat.
Proof.
  intros Hst Hrun. unfold SampleGaussian, for_loop_opt in Hrun.
  destruct (Z_lt_le_dec (extent (shape (FlatTo2D dst)) 0) 0) as [Hneg|Hpos].
  - exists (default [] (fst <$> draw_pairs fuel
              (Z.to_nat (extent (shape (FlatTo2D dst)) 1)
               * pairs_per_row (extent (shape (FlatTo2D dst)) 0)) (rng w))).
    pose proof (SampleGaussian_rows_rng fuel (FlatTo2D dst) mu sigma
                  (Z.to_nat (extent (shape (FlatTo2D dst)) 1)) 0 w) as Hrng.
    rewrite Hrun in Hrng. cbn [option_map] in Hrng.
    destruct (draw_pairs fuel _ (rng w)) as [[ps g']|]; [|discriminate].
    injection Hrng as ->. split; [reflexivity|]. intros i j _ Hj. lia.
  - assert (0 <= extent (shape (FlatTo2D dst)) 0
            <= stride_ (shape (FlatTo2D dst))) as Hfit by lia.
    destruct (SampleGaussian_rows_row_major fuel (FlatTo2D dst) mu sigma
                (rng w) _ w w' Hfit eq_refl Hrun) as (ps & Hps & Hcells).
    exists ps. split; [exact Hps|].
    intros i j Hi Hj. apply Hcells; lia.
Qed.

Lemma SampleGaussian_row_major_witness :
  let P := iso_c_float in
  let dst := {| dptr := 0; shape := {| shape_ := [3; 2]; stride_ := 4 |} |} in
  let mu := real_of_int 5 in
  let sigma := real_of_int 2 in
  let w := {| heap := ∅; rng := srand 2 |} in
  let w' := default w (SampleGaussian 5 dst mu sigma w) in
  exists ps,
    draw_pairs 5 4 (rng w) = Some (ps, rng w')
    /\ forall i j, 0 <= i < 2 -> 0 <= j < 3 ->
         heap w' !! cell (FlatTo2D dst) i j
         = gaussian_scalars mu sigma ps !! (Z.to_nat i * 4 + Z.to_nat j)%nat.
Proof.
  intros P dst mu sigma w w'.
  apply (SampleGaussian_row_major 5 dst mu sigma w w').
  - vm_compute. congruence.
  - apply Some_default. vm_compute. reflexivity.
Defined.

(** ** A constructor reseeds every engine *)

(** X13: [Random<cpu>(seed)] reseeds the generator that all the engines of
    the process draw from.  After it, whatever the engines of the process
    had drawn before, a sequence of calls on an engine constructed earlier
    shows what the same calls show on an engine that has just been
    constructed with that seed, in any process. *)
Theorem constructor_reseeds_other_engines {P : Platform} (fuel : nat)
    (older : Random) (seed base base0 : Z) (cs : list call) (w w0 : World) :
  capacity older = kRandBufferSize ->
  observable (run_calls fuel older cs (snd (construct seed base w)))
  = observable (run_calls fuel (fst (construct seed base0 w0)) cs
                  (snd (construct seed base0 w0))).
Proof.
  intros Hcap. apply run_calls_rel; [|reflexivity].
  rewrite Hcap. reflexivity.
Qed.

(** An engine constructed with seed 7 that has made a call, then a second
    engine constructed with seed 42; against a first engine constructed
    with seed 42 on empty memory. *)
Lemma constructor_reseeds_other_engines_witness :
  let P := iso_c_float in
  let small := {| shape_ := [2]; stride_ := 2 |} in
  let cs := [CallTemp Uniform small] in
  let w0 := {| heap := ∅; rng := 0 |} in
  let older := fst (construct 7 1000 w0) in
  let w1 := snd (construct 7 1000 w0) in
  let dst := {| dptr := 0; shape := {| shape_ := [3; 1]; stride_ := 3 |} |} in
  let w2 := SampleUniform dst (real_of_int 0) (real_of_int 1) w1 in
  observable (run_calls 0 older cs (snd (construct 42 2000000 w2)))
  = observable (run_calls 0 (fst (construct 42 5000 w0)) cs
                  (snd (construct 42 5000 w0))).
Proof.
  intros P small cs w0 older w1 dst w2.
  apply (constructor_reseeds_other_engines 0 older 42 2000000 5000 cs w2 w0).
  reflexivity.
Defined.
